(** * Download accounting of the mod site back end

    A shallow embedding of [DownloadCounterService]: the service that
    listens to [s3:ObjectAccessed:Get] notifications of the object storage,
    keeps one [DownloadTracker] row per (path, ipHash) and updates the
    [downloadCount] of mod versions and launcher versions.

    Conventions of the embedding
    - a JavaScript string is the list of its UTF-16 code units ([N]);
    - a [Date] is its time value, an integer number of milliseconds ([Z]);
    - a promise-returning method is a computation in the monad [M]: global
      state (data base tables, console, pending storage failures) plus an
      exception; [await] is sequencing, a promise that nobody awaits is run
      by [unawaited]. *)

From Stdlib Require Import ZArith NArith List Ascii String Lia Bool.
From stdpp Require Import base option list gmap.

Local Open Scope Z_scope.

(** ** Strings *)

Abbreviation str := (list N).

Definition lit (s : string) : str := map N_of_ascii (list_ascii_of_string s).

Definition chr (a : ascii) : N := N_of_ascii a.

(** ** Regular expressions

    The fragment of ECMAScript patterns used by the service, with the
    backtracking semantics of the language definition: a matcher takes the
    current position and a continuation, and a greedy quantifier tries the
    longest repetition first. *)

Inductive item :=
| One (c : ascii)                 (* a single character of a class *)
| Range (lo hi : ascii).          (* lo-hi *)

Inductive cset :=
| Class (l : list item)           (* [ ... ] *)
| Dot.                            (* . without the s flag *)

Definition item_mem (c : N) (it : item) : bool :=
  match it with
  | One a => N.eqb c (chr a)
  | Range lo hi => N.leb (chr lo) c && N.leb c (chr hi)
  end.

(** LineTerminator: LF, CR, LS, PS. *)
Definition line_terminator (c : N) : bool :=
  N.eqb c 10 || N.eqb c 13 || N.eqb c 8232 || N.eqb c 8233.

Definition mem (p : cset) (c : N) : bool :=
  match p with
  | Class l => existsb (item_mem c) l
  | Dot => negb (line_terminator c)
  end.

Inductive regex :=
| Eps
| Bol                                          (* ^ *)
| Eol                                          (* $ *)
| Chr (c : N)                                  (* a literal character *)
| Quant (p : cset) (lo : nat) (hi : option nat) (* p{lo,hi}, greedy; p+ is p{1,} *)
| Group (r : regex)                            (* ( r ), capturing *)
| Seq (r1 r2 : regex).

Fixpoint cat (l : list regex) : regex :=
  match l with
  | [] => Eps
  | r :: l' => Seq r (cat l')
  end.

Definition Lit (s : string) : regex := cat (map Chr (lit s)).

Definition may_take (hi : option nat) : bool :=
  match hi with Some O => false | _ => true end.

Definition dec (hi : option nat) : option nat := option_map Nat.pred hi.

Section Matcher.
Context {R : Type}.

(** [quant p lo hi s i k]: repeat [p] between [lo] and [hi] times from
    position [i] (where [s] is what is left of the input), longest first,
    and call [k] on what follows. *)
Fixpoint quant (p : cset) (lo : nat) (hi : option nat) (s : str) (i : nat)
         (k : nat -> str -> option R) : option R :=
  let stop := match lo with O => k i s | S _ => None end in
  match s with
  | c :: s' =>
      if mem p c && may_take hi then
        match quant p (Nat.pred lo) (dec hi) s' (S i) k with
        | Some r => Some r
        | None => stop
        end
      else stop
  | [] => stop
  end.

(** Captures are collected in the order in which the groups close; the
    groups of the service's patterns are not nested, so this is their
    numbering. *)
Fixpoint rmatch (r : regex) (i : nat) (s : str) (caps : list str)
         (k : nat -> str -> list str -> option R) : option R :=
  match r with
  | Eps => k i s caps
  | Bol => match i with O => k i s caps | S _ => None end
  | Eol => match s with [] => k i s caps | _ :: _ => None end
  | Chr c =>
      match s with
      | c' :: s' => if N.eqb c c' then k (S i) s' caps else None
      | [] => None
      end
  | Quant p lo hi => quant p lo hi s i (fun i' s' => k i' s' caps)
  | Group r1 =>
      rmatch r1 i s caps (fun i' s' caps' => k i' s' (caps' ++ [take (i' - i) s]))
  | Seq r1 r2 =>
      rmatch r1 i s caps (fun i' s' caps' => rmatch r2 i' s' caps' k)
  end.
End Matcher.

(** [search r i s]: the first match of [r] that starts at position [i] or
    later; the result is the match array, whole match first. *)
Fixpoint search (r : regex) (i : nat) (s : str) : option (list str) :=
  match rmatch r i s [] (fun i' _ caps => Some (take (i' - i) s :: caps)) with
  | Some m => Some m
  | None =>
      match s with
      | [] => None
      | _ :: s' => search r (S i) s'
      end
  end.

(** [String.prototype.match] with a pattern that has no g flag. *)
Definition str_match (s : str) (r : regex) : option (list str) := search r 0%nat s.

(** [m[n]] on a match array. *)
Definition group (m : list str) (n : nat) : str := nth n m [].

(** [a-zA-Z0-9\.\-_] *)
Definition slugClass : cset :=
  Class [Range "a" "z"; Range "A" "Z"; Range "0" "9"; One "."; One "-"; One "_"].

(** /^mods\/([a-zA-Z0-9\.\-_]{1,64})\/([a-zA-Z0-9\.\-_]{1,64})\/(.+)$/ *)
Definition modVersionRegex : regex :=
  cat [Bol; Lit "mods"; Chr (chr "/");
       Group (Quant slugClass 1 (Some 64%nat)); Chr (chr "/");
       Group (Quant slugClass 1 (Some 64%nat)); Chr (chr "/");
       Group (Quant Dot 1 None); Eol].

(** /^launcher\/([a-zA-Z0-9\.\-_]{1,64})\/(.+)$/ *)
Definition launcherVersionRegex : regex :=
  cat [Bol; Lit "launcher"; Chr (chr "/");
       Group (Quant slugClass 1 (Some 64%nat)); Chr (chr "/");
       Group (Quant Dot 1 None); Eol].

(** ** The client fingerprint: MD5 of the salted address, in hex *)

Module Md5.
Local Open Scope N_scope.

Definition w32 (x : N) : N := x mod 2 ^ 32.

Definition not32 (x : N) : N := N.lxor x 4294967295.

(** Rotation to the left of a 32-bit word. *)
Definition rotl (x c : N) : N :=
  w32 (N.lor (N.shiftl x c) (N.shiftr x (32 - c))).

Definition shifts : list N :=
  [7; 12; 17; 22; 7; 12; 17; 22; 7; 12; 17; 22; 7; 12; 17; 22;
   5; 9; 14; 20; 5; 9; 14; 20; 5; 9; 14; 20; 5; 9; 14; 20;
   4; 11; 16; 23; 4; 11; 16; 23; 4; 11; 16; 23; 4; 11; 16; 23;
   6; 10; 15; 21; 6; 10; 15; 21; 6; 10; 15; 21; 6; 10; 15; 21].

(** floor (2^32 * |sin (i + 1)|) *)
Definition sines : list N :=
  [3614090360; 3905402710; 606105819; 3250441966; 4118548399; 1200080426; 2821735955; 4249261313;
   1770035416; 2336552879; 4294925233; 2304563134; 1804603682; 4254626195; 2792965006; 1236535329;
   4129170786; 3225465664; 643717713; 3921069994; 3593408605; 38016083; 3634488961; 3889429448;
   568446438; 3275163606; 4107603335; 1163531501; 2850285829; 4243563512; 1735328473; 2368359562;
   4294588738; 2272392833; 1839030562; 4259657740; 2763975236; 1272893353; 4139469664; 3200236656;
   681279174; 3936430074; 3572445317; 76029189; 3654602809; 3873151461; 530742520; 3299628645;
   4096336452; 1126891415; 2878612391; 4237533241; 1700485571; 2399980690; 4293915773; 2240044497;
   1873313359; 4264355552; 2734768916; 1309151649; 4149444226; 3174756917; 718787259; 3951481745].

Fixpoint le_bytes (n : nat) (x : N) : list N :=
  match n with
  | O => []
  | S n' => x mod 256 :: le_bytes n' (x / 256)
  end.

Fixpoint le_word (bs : list N) : N :=
  match bs with
  | [] => 0
  | b :: bs' => b + 256 * le_word bs'
  end.

Fixpoint words (n : nat) (bs : list N) : list N :=
  match n with
  | O => []
  | S n' => le_word (take 4 bs) :: words n' (drop 4 bs)
  end.

(** The message, a 1 bit, zeros up to 56 modulo 64 bytes, and the length
    in bits as a 64-bit little-endian number. *)
Definition pad (msg : list N) : list N :=
  let len := N.of_nat (length msg) in
  let zeros := (64 + 55 - len mod 64) mod 64 in
  msg ++ [128] ++ repeat 0 (N.to_nat zeros) ++ le_bytes 8 ((len * 8) mod 2 ^ 64).

Definition state : Type := N * N * N * N.

Definition init : state := (1732584193, 4023233417, 2562383102, 271733878).

Definition step (m : list N) (st : state) (i : nat) : state :=
  let '(a, b, c, d) := st in
  let j := N.of_nat i in
  let '(f, g) :=
    if j <? 16 then (N.lor (N.land b c) (N.land (not32 b) d), j)
    else if j <? 32 then (N.lor (N.land d b) (N.land (not32 d) c), (5 * j + 1) mod 16)
    else if j <? 48 then (N.lxor b (N.lxor c d), (3 * j + 5) mod 16)
    else (N.lxor c (N.lor b (not32 d)), (7 * j) mod 16) in
  let f' := w32 (f + a + nth i sines 0 + nth (N.to_nat g) m 0) in
  (d, w32 (b + rotl f' (nth i shifts 0)), b, c).

Definition chunk (h : state) (bs : list N) : state :=
  let '(a0, b0, c0, d0) := h in
  let '(a, b, c, d) := fold_left (step (words 16 bs)) (seq 0 64) h in
  (w32 (a0 + a), w32 (b0 + b), w32 (c0 + c), w32 (d0 + d)).

Fixpoint chunks (n : nat) (h : state) (bs : list N) : state :=
  match n with
  | O => h
  | S n' => chunks n' (chunk h (take 64 bs)) (drop 64 bs)
  end.

Definition digest (msg : list N) : list N :=
  let p := pad msg in
  let '(a, b, c, d) := chunks (length p / 64) init p in
  le_bytes 4 a ++ le_bytes 4 b ++ le_bytes 4 c ++ le_bytes 4 d.

Definition hex_digit (x : N) : N := if x <? 10 then 48 + x else 87 + x.

(** [digest('hex')]: two lower-case digits per byte. *)
Definition hex (bs : list N) : str :=
  flat_map (fun b => [hex_digit (b / 16); hex_digit (b mod 16)]) bs.

Definition is_high (c : N) : bool := (55296 <=? c) && (c <=? 56319).
Definition is_low (c : N) : bool := (56320 <=? c) && (c <=? 57343).

Definition utf8_point (c : N) : list N :=
  if c <? 128 then [c]
  else if c <? 2048 then [192 + c / 64; 128 + c mod 64]
  else if c <? 65536 then [224 + c / 4096; 128 + (c / 64) mod 64; 128 + c mod 64]
  else [240 + c / 262144; 128 + (c / 4096) mod 64; 128 + (c / 64) mod 64; 128 + c mod 64].

(** The bytes that [update] hashes for a string: its UTF-8 encoding, a
    surrogate pair being one code point and a lone surrogate U+FFFD. *)
Fixpoint utf8 (s : str) : list N :=
  match s with
  | [] => []
  | c :: s' =>
      if is_high c then
        match s' with
        | d :: s'' =>
            if is_low d
            then utf8_point (65536 + (c - 55296) * 1024 + (d - 56320)) ++ utf8 s''
            else utf8_point 65533 ++ utf8 s'
        | [] => utf8_point 65533
        end
      else if is_low c then utf8_point 65533 ++ utf8 s'
      else utf8_point c ++ utf8 s'
  end.

End Md5.

(** Salt for download trackers. *)
Definition IP_HASH_SALT : str := lit "C0AayiNoVJJPzhm58v4W".

(** createHash('md5').update(IP_HASH_SALT).update(ip).digest('hex') *)
Definition ipHashOf (ip : str) : str :=
  Md5.hex (Md5.digest (Md5.utf8 IP_HASH_SALT ++ Md5.utf8 ip)).


(** ** Entities and tables *)

(** Modelled from the spec: the [DownloadTracker] entity
    (../entities/DownloadTracker is not among the sources); a row has the
    shape [{ path, ipHash, expiresAt }] and is unique on (path, ipHash). *)
Record DownloadTracker := {
  ipHash : str;
  path : str;
  expiresAt : Z;
}.

(** Modelled from the spec: the [ModVersion] entity
    (../entities/ModVersion is not among the sources); only the columns the
    service reads or writes, and the primary key that [save] goes by. *)
Module ModVersion.
Record t := {
  id : N;
  modId : str;
  version : str;
  downloadCount : Z;
}.
End ModVersion.

(** Modelled from the spec: the [LauncherVersion] entity
    (../entities/LauncherVersion is not among the sources). *)
Module LauncherVersion.
Record t := {
  id : N;
  version : str;
  downloadCount : Z;
}.
End LauncherVersion.

(** What is thrown: by a storage call that is rejected, and by the MinIO
    library for an endpoint that it does not accept. *)
Inductive Error :=
| QueryFailed
| InvalidEndpointError.

(** The lines written by [console.log] and [console.error]. *)
Inductive LogEntry :=
| MissingStorageClientConfig
    (* MISSING STORAGE CLIENT CONFIG! Upload not supported! *)
| NoStorageClient
    (* No storage client configured! Nothing was uploaded! *)
| RemovingExpiredFailed (err : Error)
    (* Error while removing expired download trackers. *)
| UnknownUpload (key : str)
    (* File ${key} does not match any known type of known upload! *)
| NonexistantMod (modSlug versionSlug : str)
    (* Received download event for nonexistant mod ${modSlug} version ${versionSlug}! *)
| ModCountNotUpdated (modSlug versionSlug : str) (err : Error)
    (* Could not update mod ${modSlug} version ${versionSlug} download count! *)
| NonexistantLauncher (versionSlug : str)
    (* Received download event for nonexistant launcher version ${versionSlug}! *)
| LauncherCountNotUpdated (versionSlug : str) (err : Error).
    (* Could not update launcher version ${versionSlug} download count! *)

(** Everything outside the service object: the three tables, the console
    (oldest line first), the rejections of promises that nobody awaited, and
    the outcome of the storage calls still to come ([true]: the call
    rejects; when the list is used up every call succeeds). *)
Record World := {
  trackers : gmap (str * str) Z;        (* (path, ipHash) -> expiresAt *)
  modVersions : list ModVersion.t;
  launcherVersions : list LauncherVersion.t;
  console : list LogEntry;
  unhandled : list Error;
  faults : list bool;
}.

Definition with_trackers (t : gmap (str * str) Z) (w : World) : World :=
  {| trackers := t; modVersions := modVersions w;
     launcherVersions := launcherVersions w; console := console w;
     unhandled := unhandled w; faults := faults w |}.

Definition with_modVersions (l : list ModVersion.t) (w : World) : World :=
  {| trackers := trackers w; modVersions := l;
     launcherVersions := launcherVersions w; console := console w;
     unhandled := unhandled w; faults := faults w |}.

Definition with_launcherVersions (l : list LauncherVersion.t) (w : World) : World :=
  {| trackers := trackers w; modVersions := modVersions w;
     launcherVersions := l; console := console w;
     unhandled := unhandled w; faults := faults w |}.

Definition with_console (l : list LogEntry) (w : World) : World :=
  {| trackers := trackers w; modVersions := modVersions w;
     launcherVersions := launcherVersions w; console := l;
     unhandled := unhandled w; faults := faults w |}.

Definition with_unhandled (l : list Error) (w : World) : World :=
  {| trackers := trackers w; modVersions := modVersions w;
     launcherVersions := launcherVersions w; console := console w;
     unhandled := l; faults := faults w |}.

Definition with_faults (l : list bool) (w : World) : World :=
  {| trackers := trackers w; modVersions := modVersions w;
     launcherVersions := launcherVersions w; console := console w;
     unhandled := unhandled w; faults := l |}.

(** ** Promises *)

Inductive Result (A : Type) :=
| Ok (a : A)
| Throw (e : Error).

Arguments Ok {A} a.
Arguments Throw {A} e.

Definition M (A : Type) : Type := World -> Result A * World.

Definition ret {A} (a : A) : M A := fun w => (Ok a, w).

Definition bind {A B} (m : M A) (f : A -> M B) : M B :=
  fun w =>
    match m w with
    | (Ok a, w') => f a w'
    | (Throw e, w') => (Throw e, w')
    end.

Global Instance M_ret : MRet M := @ret.
Global Instance M_bind : MBind M := fun A B f m => bind m f.

Definition throw {A} (e : Error) : M A := fun w => (Throw e, w).

(** try { m } catch (err) { h err } *)
Definition try_catch {A} (m : M A) (h : Error -> M A) : M A :=
  fun w =>
    match m w with
    | (Ok a, w') => (Ok a, w')
    | (Throw e, w') => h e w'
    end.

(** A call whose promise is dropped: its effects take place, and when it
    rejects nothing in the caller sees it. *)
Definition unawaited {A} (m : M A) : M unit :=
  fun w =>
    match m w with
    | (Ok _, w') => (Ok tt, w')
    | (Throw e, w') => (Ok tt, with_unhandled (unhandled w' ++ [e]) w')
    end.

Definition console_write (e : LogEntry) : M unit :=
  fun w => (Ok tt, with_console (console w ++ [e]) w).

Definition console_log := console_write.
Definition console_error := console_write.

(** A call to the data base: it runs [op] unless it is its turn to fail. *)
Definition query {A} (op : World -> A * World) : M A :=
  fun w =>
    match faults w with
    | true :: fs => (Throw QueryFailed, with_faults fs w)
    | false :: fs => let (a, w') := op (with_faults fs w) in (Ok a, w')
    | [] => let (a, w') := op w in (Ok a, w')
    end.

(** array.forEach(f) *)
Fixpoint forEach {A} (l : list A) (f : A -> M unit) : M unit :=
  match l with
  | [] => ret tt
  | x :: l' => f x;; forEach l' f
  end.

(** ** The entity methods (TypeORM's BaseEntity) *)

(** DownloadTracker.findOne({ where: { path, ipHash } }): the row, or null
    ([None]) when there is none *)
Definition DownloadTracker_findOne (path ipHash : str) : M (option DownloadTracker) :=
  query (fun w =>
    ((fun e => {| ipHash := ipHash; path := path; expiresAt := e |})
       <$> trackers w !! (path, ipHash), w)).

Definition DownloadTracker_create (ipHash path : str) (expiresAt : Z) : DownloadTracker :=
  {| ipHash := ipHash; path := path; expiresAt := expiresAt |}.

(** tracker.expiresAt = value *)
Definition set_expiresAt (value : Z) (tracker : DownloadTracker) : DownloadTracker :=
  {| ipHash := ipHash tracker; path := path tracker; expiresAt := value |}.

(** DownloadTracker.save(row): insert, or update the row with that key *)
Definition DownloadTracker_save (row : DownloadTracker) : M unit :=
  query (fun w =>
    (tt, with_trackers (<[(path row, ipHash row) := expiresAt row]> (trackers w)) w)).

(** MoreThan(value), as a condition on a column *)
Definition MoreThan (value : Z) (column : Z) : Prop := value < column.

Global Instance MoreThan_dec value column : Decision (MoreThan value column).
Proof. unfold MoreThan. apply _. Defined.

(** DownloadTracker.find({ where: { expiresAt: cond } }) *)
Definition DownloadTracker_find (cond : Z -> Prop) `{!forall e, Decision (cond e)} :
  M (list DownloadTracker) :=
  query (fun w =>
    ((fun kv => {| ipHash := snd (fst kv); path := fst (fst kv); expiresAt := snd kv |})
       <$> map_to_list (filter (fun kv => cond (snd kv)) (trackers w)), w)).

(** ModVersion.findBy({ modId, version }) *)
Definition ModVersion_findBy (modId version : str) : M (list ModVersion.t) :=
  query (fun w =>
    (filter (fun r => ModVersion.modId r = modId /\ ModVersion.version r = version)
            (modVersions w), w)).

(** ModVersion.save(row): update the row with that primary key, or insert *)
Definition ModVersion_save (row : ModVersion.t) : M unit :=
  query (fun w =>
    let same (r : ModVersion.t) := N.eqb (ModVersion.id r) (ModVersion.id row) in
    (tt, with_modVersions
           (if existsb same (modVersions w)
            then map (fun r => if same r then row else r) (modVersions w)
            else modVersions w ++ [row]) w)).

(** LauncherVersion.findBy({ version }) *)
Definition LauncherVersion_findBy (version : str) : M (list LauncherVersion.t) :=
  query (fun w =>
    (filter (fun r => LauncherVersion.version r = version) (launcherVersions w), w)).

(** LauncherVersion.save(row) *)
Definition LauncherVersion_save (row : LauncherVersion.t) : M unit :=
  query (fun w =>
    let same (r : LauncherVersion.t) := N.eqb (LauncherVersion.id r) (LauncherVersion.id row) in
    (tt, with_launcherVersions
           (if existsb same (launcherVersions w)
            then map (fun r => if same r then row else r) (launcherVersions w)
            else launcherVersions w ++ [row]) w)).

(** ** The service *)

(** The part of an [s3:ObjectAccessed:Get] notification that is used:
    [notif.s3.object.key] and [notif.source.host]. *)
Record ObjectAccessedGetNotification := {
  key : str;
  host : str;
}.

(** MinIO / S3 notification codes to listen to for downloads. *)
Definition downloadEventCodes : list str := [lit "s3:ObjectAccessed:Get"].

(** The interval between checking for expired download trackers. *)
Definition RESET_INTERVAL : Z := 1000 * 60.

(** The amount of time until a download tracker expires. *)
Definition TRACKING_DURATION : Z := 1000 * 60.

(** Modelled from the spec: the storage part of [Cfg] (../cfg is not among
    the sources): access key, secret key, endpoint and the public bucket,
    each a string or absent ([None]). *)
Record StorageCfg := {
  accessKey : option str;
  secretKey : option str;
  endPoint : option str;
  publicBucket : option str;
}.

Record Cfg := {
  storage : StorageCfg;
}.

(** A MinIO client is the options it was made with. *)
Record Client := {
  client_accessKey : option str;
  client_secretKey : option str;
  client_endPoint : option str;
}.

(** The callbacks that the service registers. *)
Inductive Callback :=
| LogError                  (* (err) => console.error(err) *)
| ProcessNotification       (* (notif) => this.processNotification(notif) *)
| RemoveExpiredTrackers.    (* () => this.removeExpiredTrackers() *)

Global Instance Callback_eq_dec : EqDecision Callback.
Proof. solve_decision. Defined.

(** The emitter returned by [listenBucketNotification], with its listeners. *)
Record Emitter := {
  bucket : option str;
  prefix : str;
  suffix : str;
  events : list str;
  listeners : list (str * Callback);
}.

Definition on (e : Emitter) (event : str) (f : Callback) : Emitter :=
  {| bucket := bucket e; prefix := prefix e; suffix := suffix e;
     events := events e; listeners := listeners e ++ [(event, f)] |}.

Definition listenBucketNotification (c : Client) (bucket : option str)
           (prefix suffix : str) (events : list str) : Emitter :=
  {| bucket := bucket; prefix := prefix; suffix := suffix; events := events;
     listeners := [] |}.

(** What [setInterval] returns. *)
Record Timeout := {
  callback : Callback;
  delay : Z;
}.

Record DownloadCounterService := {
  cfg : Cfg;
  client : option Client;
  modNotificationEmitter : option Emitter;
  removalTask : option Timeout;
}.

(** A string or undefined, used as a condition. *)
Definition truthy (v : option str) : bool :=
  match v with
  | Some (_ :: _) => true
  | _ => false
  end.

(** [new Client(options)] of the MinIO library. The library checks the
    endpoint first and throws InvalidEndpointError for one that is no host
    name or address, as an endpoint that is absent or empty is. A present
    endpoint is taken to be a good one here; the service never passes one. *)
Definition new_Client (accessKey secretKey endPoint : option str) : M Client :=
  if truthy endPoint then
    mret {| client_accessKey := accessKey;
            client_secretKey := secretKey;
            client_endPoint := endPoint |}
  else throw InvalidEndpointError.

Definition constructor (cfg : Cfg) : M DownloadCounterService :=
  let accessKey := accessKey (storage cfg) in
  let secretKey := secretKey (storage cfg) in
  let endPoint := endPoint (storage cfg) in
  if truthy accessKey && truthy secretKey && negb (truthy endPoint) then
    client ← new_Client accessKey secretKey endPoint;
    mret {| cfg := cfg;
            client := Some client;
            modNotificationEmitter := None;
            removalTask := None |}
  else
    console_log MissingStorageClientConfig;;
    mret {| cfg := cfg; client := None;
            modNotificationEmitter := None; removalTask := None |}.

Definition startListening (this : DownloadCounterService) : M DownloadCounterService :=
  match client this with
  | None => console_log NoStorageClient;; mret this
  | Some c =>
      let emitter :=
        listenBucketNotification c (publicBucket (storage (cfg this)))
                                 [] [] downloadEventCodes in
      let emitter := on emitter (lit "error") LogError in
      let emitter := on emitter (lit "notification") ProcessNotification in
      mret {| cfg := cfg this; client := client this;
              modNotificationEmitter := Some emitter;
              removalTask := Some {| callback := RemoveExpiredTrackers;
                                     delay := RESET_INTERVAL |} |}
  end.

(** The result of [findBy] is an array, which is never falsy: the condition
    [!modVersions || modVersions.length <= 0] is the test on the length. The
    increment and the save stand inside this condition, after the message. *)
Definition countModVersionDownload (modSlug versionSlug : str) : M unit :=
  try_catch
    (modVersions ← ModVersion_findBy modSlug versionSlug;
     if (length modVersions <=? 0)%nat then
       console_error (NonexistantMod modSlug versionSlug);;
       forEach modVersions (fun modVersion =>
         let modVersion :=
           {| ModVersion.id := ModVersion.id modVersion;
              ModVersion.modId := ModVersion.modId modVersion;
              ModVersion.version := ModVersion.version modVersion;
              ModVersion.downloadCount := ModVersion.downloadCount modVersion + 1 |} in
         unawaited (ModVersion_save modVersion))
     else mret tt)
    (fun err => console_error (ModCountNotUpdated modSlug versionSlug err)).

Definition countLauncherVersionDownload (versionSlug : str) : M unit :=
  try_catch
    (launcherVersions ← LauncherVersion_findBy versionSlug;
     if (length launcherVersions <=? 0)%nat then
       console_error (NonexistantLauncher versionSlug);;
       forEach launcherVersions (fun launcherVersion =>
         let launcherVersion :=
           {| LauncherVersion.id := LauncherVersion.id launcherVersion;
              LauncherVersion.version := LauncherVersion.version launcherVersion;
              LauncherVersion.downloadCount :=
                LauncherVersion.downloadCount launcherVersion + 1 |} in
         unawaited (LauncherVersion_save launcherVersion))
     else mret tt)
    (fun err => console_error (LauncherCountNotUpdated versionSlug err)).

(** The target that a key names; [None] is a key of no known type. *)
Inductive DownloadTarget :=
| ModVersionTarget (modSlug versionSlug : str)
| LauncherVersionTarget (versionSlug : str).

(** The two pattern matches of [countDownload], in its order. *)
Definition classify (key : str) : option DownloadTarget :=
  match str_match key modVersionRegex with
  | Some modVersionMatch =>
      Some (ModVersionTarget (group modVersionMatch 1) (group modVersionMatch 2))
  | None =>
      match str_match key launcherVersionRegex with
      | Some launcherVersionMatch =>
          Some (LauncherVersionTarget (group launcherVersionMatch 1))
      | None => None
      end
  end.

(** Processes a download event within the public bucket. *)
Definition countDownload (notif : ObjectAccessedGetNotification) : M unit :=
  match classify (key notif) with
  | Some (ModVersionTarget modSlug versionSlug) =>
      countModVersionDownload modSlug versionSlug
  | Some (LauncherVersionTarget versionSlug) =>
      countLauncherVersionDownload versionSlug
  | None => console_error (UnknownUpload (key notif))
  end.

(** [now] is the clock when the handler starts ([new Date()] of the new
    expiry) and [now'] the clock when it compares ([new Date()] in the test
    for [expired]). *)
Definition processNotification (now now' : Z)
           (notif : ObjectAccessedGetNotification) : M unit :=
  let path := key notif in
  let ip := host notif in
  let ipHash := ipHashOf ip in
  let newExpiry := now + TRACKING_DURATION in
  tracker ← DownloadTracker_findOne path ipHash;
  match tracker with
  | None =>
      DownloadTracker_save (DownloadTracker_create ipHash path newExpiry);;
      countDownload notif
  | Some tracker =>
      let expired := expiresAt tracker <? now' in
      let tracker := set_expiresAt newExpiry tracker in
      unawaited (DownloadTracker_save tracker);;
      if expired then countDownload notif else mret tt
  end.

(** The tracker part of [processNotification]: what it does apart from the
    two calls of [countDownload], returning whether it makes the call. *)
Definition observe (now now' : Z) (path ipHash : str) : M bool :=
  let newExpiry := now + TRACKING_DURATION in
  tracker ← DownloadTracker_findOne path ipHash;
  match tracker with
  | None =>
      DownloadTracker_save (DownloadTracker_create ipHash path newExpiry);;
      mret true
  | Some tracker =>
      let expired := expiresAt tracker <? now' in
      let tracker := set_expiresAt newExpiry tracker in
      unawaited (DownloadTracker_save tracker);;
      mret expired
  end.

Definition removeExpiredTrackers (now : Z) : M unit :=
  try_catch
    (DownloadTracker_find (MoreThan now);; mret tt)
    (fun err => console_error (RemovingExpiredFailed err)).

(** ** What the patterns denote

    [Matches r i s caps i' s' caps']: one way for [r] to match from position
    [i], where [s] is left of the input, ending at position [i'] with [s']
    left; the matcher above searches these ways in its order of preference. *)

Definition within (n : nat) (hi : option nat) : Prop :=
  match hi with
  | Some h => (n <= h)%nat
  | None => True
  end.

Inductive Matches : regex -> nat -> str -> list str -> nat -> str -> list str -> Prop :=
| M_Eps i s c : Matches Eps i s c i s c
| M_Bol s c : Matches Bol 0 s c 0 s c
| M_Eol i c : Matches Eol i [] c i [] c
| M_Chr x i s c : Matches (Chr x) i (x :: s) c (S i) s c
| M_Quant p lo hi n i s c :
    (lo <= n)%nat -> within n hi -> (n <= length s)%nat ->
    forallb (mem p) (take n s) = true ->
    Matches (Quant p lo hi) i s c (i + n) (drop n s) c
| M_Group r i s c i' s' c' :
    Matches r i s c i' s' c' ->
    Matches (Group r) i s c i' s' (c' ++ [take (i' - i) s])
| M_Seq r1 r2 i s c i1 s1 c1 i2 s2 c2 :
    Matches r1 i s c i1 s1 c1 -> Matches r2 i1 s1 c1 i2 s2 c2 ->
    Matches (Seq r1 r2) i s c i2 s2 c2.

(** The shapes of keys in the words of the design: a slug is 1 to 64
    characters drawn from letters, digits, dot, hyphen and underscore; a
    file name is one or more characters, none of them a line terminator. *)

Definition letter (c : N) : bool :=
  (N.leb 65 c && N.leb c 90) || (N.leb 97 c && N.leb c 122).

Definition digit (c : N) : bool := N.leb 48 c && N.leb c 57.

Definition slug_char (c : N) : bool :=
  letter c || digit c || N.eqb c 46 || N.eqb c 45 || N.eqb c 95.

Definition is_slug (a : str) : bool :=
  (1 <=? length a)%nat && (length a <=? 64)%nat && forallb slug_char a.

Definition is_filename (f : str) : bool :=
  (1 <=? length f)%nat && forallb (fun c => negb (line_terminator c)) f.

Definition modKey (modSlug versionSlug filename : str) : str :=
  lit "mods/" ++ modSlug ++ lit "/" ++ versionSlug ++ lit "/" ++ filename.

Definition launcherKey (versionSlug filename : str) : str :=
  lit "launcher/" ++ versionSlug ++ lit "/" ++ filename.

(** ** Situations used in the examples *)

Definition emptyWorld : World :=
  {| trackers := ∅; modVersions := []; launcherVersions := [];
     console := []; unhandled := []; faults := [] |}.

(** The mod version super-mod@1.2.0, not downloaded yet. *)
Definition superMod : ModVersion.t :=
  {| ModVersion.id := 1; ModVersion.modId := lit "super-mod";
     ModVersion.version := lit "1.2.0"; ModVersion.downloadCount := 0 |}.

(** The launcher version 3.4.5, not downloaded yet. *)
Definition launcher345 : LauncherVersion.t :=
  {| LauncherVersion.id := 1; LauncherVersion.version := lit "3.4.5";
     LauncherVersion.downloadCount := 0 |}.

Definition catalogWorld : World :=
  with_launcherVersions [launcher345] (with_modVersions [superMod] emptyWorld).

Definition notifSuperMod : ObjectAccessedGetNotification :=
  {| key := lit "mods/super-mod/1.2.0/file.zip"; host := lit "1.2.3.4" |}.

Definition notifLauncher : ObjectAccessedGetNotification :=
  {| key := lit "launcher/3.4.5/setup.exe"; host := lit "1.2.3.4" |}.

Definition notifUnrelated : ObjectAccessedGetNotification :=
  {| key := lit "random/unrelated/path"; host := lit "1.2.3.4" |}.

(** The key of the tracker row of a notification. *)
Definition trackerKey (notif : ObjectAccessedGetNotification) : str * str :=
  (key notif, ipHashOf (host notif)).

(** A configuration with all three credentials, and one without endpoint. *)
Definition fullCfg : Cfg :=
  {| storage := {| accessKey := Some (lit "minio"); secretKey := Some (lit "secret");
                       endPoint := Some (lit "storage.example.org");
                       publicBucket := Some (lit "public") |} |}.

Definition noEndPointCfg : Cfg :=
  {| storage := {| accessKey := Some (lit "minio"); secretKey := Some (lit "secret");
                       endPoint := None;
                       publicBucket := Some (lit "public") |} |}.

(** A world where the unrelated key was seen, its row expiring at 1000. *)
Definition boundaryWorld : World :=
  with_trackers {[ trackerKey notifUnrelated := 1000 ]} emptyWorld.

(** A world with two tracker rows, expiring at 100 and at 300. *)
Definition sweepWorld : World :=
  with_trackers {[ (lit "mods/a/1/old.zip", ipHashOf (lit "1.2.3.4")) := 100;
                   (lit "mods/a/2/new.zip", ipHashOf (lit "1.2.3.4")) := 300 ]}
                emptyWorld.

(** Subscribed to the bucket with a listener for notifications, and the
    sweep scheduled. *)
Definition listening (r : Result DownloadCounterService) : bool :=
  match r with
  | Ok this =>
      match modNotificationEmitter this, removalTask this with
      | Some e, Some t =>
          bool_decide (bucket e = publicBucket (storage (cfg this)))
          && bool_decide ((lit "notification", ProcessNotification) ∈ listeners e)
          && bool_decide (callback t = RemoveExpiredTrackers)
      | _, _ => false
      end
  | Throw _ => false
  end.

(** [m] leaves the part [proj] of the world as it finds it. *)
Definition preserves {A B} (proj : World -> B) (m : M A) : Prop :=
  forall w, proj (snd (m w)) = proj w.

(** A digit of a lower-case hexadecimal number: 0-9 or a-f. *)
Definition hex_char (c : N) : bool :=
  (N.leb 48 c && N.leb c 57) || (N.leb 97 c && N.leb c 102).

(** * Properties *)

(** ** Sanity checks of the pattern matcher and of the digest *)

Example match_mod :
  str_match (lit "mods/super-mod/1.2.0/file.zip") modVersionRegex
  = Some [lit "mods/super-mod/1.2.0/file.zip"; lit "super-mod"; lit "1.2.0"; lit "file.zip"].
Proof. vm_compute. reflexivity. Qed.

Example match_mod_deep :
  str_match (lit "mods/a/b/c/d") modVersionRegex
  = Some [lit "mods/a/b/c/d"; lit "a"; lit "b"; lit "c/d"].
Proof. vm_compute. reflexivity. Qed.

Example match_launcher :
  str_match (lit "launcher/3.4.5/setup.exe") launcherVersionRegex
  = Some [lit "launcher/3.4.5/setup.exe"; lit "3.4.5"; lit "setup.exe"].
Proof. vm_compute. reflexivity. Qed.

Example match_other :
  str_match (lit "random/unrelated/path") modVersionRegex = None
  /\ str_match (lit "random/unrelated/path") launcherVersionRegex = None
  /\ str_match (lit "xmods/a/b/c") modVersionRegex = None
  /\ str_match (lit "mods/a/b/") modVersionRegex = None
  /\ str_match (lit "mods/a b/c/d") modVersionRegex = None.
Proof. vm_compute. repeat split. Qed.

Example digest_empty : Md5.hex (Md5.digest []) = lit "d41d8cd98f00b204e9800998ecf8427e".
Proof. vm_compute. reflexivity. Qed.

Example digest_abc : Md5.hex (Md5.digest (Md5.utf8 (lit "abc"))) = lit "900150983cd24fb0d6963f7d28e17f72".
Proof. vm_compute. reflexivity. Qed.

Example digest_two_chunks :
  Md5.hex (Md5.digest (repeat 97%N 70)) = lit "0f5c6c4e740bfcc08c3c26ccb2673d46".
Proof. vm_compute. reflexivity. Qed.

Example digest_utf8 :
  Md5.hex (Md5.digest (Md5.utf8 (lit "C0AayiNoVJJPzhm58v4W" ++ [233; 8364; 55357; 56832]%N)))
  = lit "6526fd424efd60c0441d48bf2c290e9e".
Proof. vm_compute. reflexivity. Qed.

Example ipHash_1_2_3_4 : ipHashOf (lit "1.2.3.4") = lit "6fb4ed3466dc3c3a5181ea4e3d7353c5".
Proof. vm_compute. reflexivity. Qed.

(** ** The matcher finds the preferred way to match *)

Lemma quant_sound {R} p lo hi s i (k : nat -> str -> option R) r :
  quant p lo hi s i k = Some r ->
  exists n, (lo <= n)%nat /\ within n hi /\ (n <= length s)%nat
            /\ forallb (mem p) (take n s) = true
            /\ k (i + n)%nat (drop n s) = Some r.
Proof.
  revert lo hi i. induction s as [|c s IH]; intros lo hi i H; simpl in H.
  - destruct lo; [|discriminate]. exists 0%nat.
    rewrite Nat.add_0_r. simpl. repeat split; try lia; auto. destruct hi; simpl; lia.
  - assert (Hstop : match lo with O => k i (c :: s) | S _ => None end = Some r ->
                    exists n, (lo <= n)%nat /\ within n hi /\ (n <= length (c :: s))%nat
                              /\ forallb (mem p) (take n (c :: s)) = true
                              /\ k (i + n)%nat (drop n (c :: s)) = Some r).
    { intros Hs. destruct lo; [|discriminate]. exists 0%nat.
      rewrite Nat.add_0_r. simpl. repeat split; try lia; auto. destruct hi; simpl; lia. }
    destruct (mem p c && may_take hi) eqn:Hc; [|auto].
    apply andb_true_iff in Hc as [Hm Ht].
    destruct (quant p (Nat.pred lo) (dec hi) s (S i) k) eqn:Hq; [|auto].
    inversion H; subst. apply IH in Hq as (n & Hlo & Hhi & Hlen & Hall & Hk).
    exists (S n). simpl. rewrite Hm, Hall. rewrite Nat.add_succ_r.
    repeat split; try lia; auto.
    destruct hi as [[|h]|]; simpl in *; try discriminate; lia.
Qed.

Lemma quant_complete {R} p lo hi s i (k : nat -> str -> option R) :
  quant p lo hi s i k = None ->
  forall n, (lo <= n)%nat -> within n hi -> (n <= length s)%nat ->
            forallb (mem p) (take n s) = true ->
            k (i + n)%nat (drop n s) = None.
Proof.
  revert lo hi i. induction s as [|c s IH]; intros lo hi i H n Hlo Hhi Hlen Hall; simpl in *.
  - assert (n = 0)%nat by lia. subst. assert (lo = 0)%nat by lia. subst.
    rewrite Nat.add_0_r. exact H.
  - destruct n as [|n].
    + assert (lo = 0)%nat by lia. subst. rewrite Nat.add_0_r. simpl.
      destruct (mem p c && may_take hi); [|exact H].
      destruct (quant p (Nat.pred 0) (dec hi) s (S i) k); [discriminate|exact H].
    + simpl in Hall. apply andb_true_iff in Hall as [Hm Hall].
      assert (Ht : may_take hi = true).
      { destruct hi as [[|h]|]; simpl in *; auto; lia. }
      rewrite Hm, Ht in H. simpl in H.
      destruct (quant p (Nat.pred lo) (dec hi) s (S i) k) eqn:Hq; [discriminate|].
      rewrite Nat.add_succ_r. simpl.
      apply (IH _ _ _ Hq n); try lia; auto.
      destruct hi as [h|]; simpl in *; lia.
Qed.

Lemma rmatch_sound {R} r : forall i s c (k : nat -> str -> list str -> option R) x,
  rmatch r i s c k = Some x ->
  exists i' s' c', Matches r i s c i' s' c' /\ k i' s' c' = Some x.
Proof.
  induction r; intros i s c0 k x H; simpl in H.
  - eauto using Matches.
  - destruct i; [|discriminate]. eauto using Matches.
  - destruct s; [|discriminate]. eauto using Matches.
  - destruct s as [|c' s]; [discriminate|].
    destruct (N.eqb_spec c c'); [|discriminate]. subst. eauto using Matches.
  - apply quant_sound in H as (n & ? & ? & ? & ? & ?).
    eexists _, _, _. split; [apply M_Quant; eauto|]. auto.
  - apply IHr in H as (i' & s' & c' & Hm & Hk). simpl in Hk.
    eexists _, _, _. split; [apply M_Group; exact Hm | exact Hk].
  - apply IHr1 in H as (i1 & s1 & c1 & Hm1 & H).
    apply IHr2 in H as (i2 & s2 & c2 & Hm2 & H).
    eexists _, _, _. split; [eapply M_Seq; eauto | exact H].
Qed.

Lemma rmatch_complete {R} r : forall i s c (k : nat -> str -> list str -> option R),
  rmatch r i s c k = None ->
  forall i' s' c', Matches r i s c i' s' c' -> k i' s' c' = None.
Proof.
  induction r; intros i s c0 k H i' s' c' Hm; inversion Hm; subst; simpl in H; auto.
  - rewrite N.eqb_refl in H. auto.
  - eapply quant_complete in H; eauto.
  - match goal with Hm' : Matches r _ _ _ _ _ _ |- _ =>
      exact (IHr _ _ _ _ H _ _ _ Hm') end.
  - match goal with Hm1 : Matches r1 _ _ _ _ _ _, Hm2 : Matches r2 _ _ _ _ _ _ |- _ =>
      exact (IHr2 _ _ _ _ (IHr1 _ _ _ _ H _ _ _ Hm1) _ _ _ Hm2) end.
Qed.

Lemma Matches_pos r i s c i' s' c' :
  Matches r i s c i' s' c' -> exists u, s = u ++ s' /\ i' = (i + length u)%nat.
Proof.
  induction 1.
  - exists []. split; [reflexivity | simpl; lia].
  - exists []. split; [reflexivity | simpl; lia].
  - exists []. split; [reflexivity | simpl; lia].
  - exists [x]. split; [reflexivity | simpl; lia].
  - exists (take n s). rewrite take_drop, length_take. split; [reflexivity | lia].
  - exact IHMatches.
  - destruct IHMatches1 as (u1 & -> & ->). destruct IHMatches2 as (u2 & -> & ->).
    exists (u1 ++ u2). rewrite length_app, <- app_assoc. split; [reflexivity | lia].
Qed.

Lemma Matches_Seq_inv r1 r2 i s c i2 s2 c2 :
  Matches (Seq r1 r2) i s c i2 s2 c2 ->
  exists i1 s1 c1, Matches r1 i s c i1 s1 c1 /\ Matches r2 i1 s1 c1 i2 s2 c2.
Proof. inversion 1; subst; eauto. Qed.

Lemma Matches_Chr_inv x i s c i' s' c' :
  Matches (Chr x) i s c i' s' c' -> s = x :: s' /\ i' = S i /\ c' = c.
Proof. inversion 1; subst; auto. Qed.

Lemma Matches_Bol_inv i s c i' s' c' :
  Matches Bol i s c i' s' c' -> i = 0%nat /\ i' = 0%nat /\ s' = s /\ c' = c.
Proof. inversion 1; subst; auto. Qed.

Lemma Matches_Eol_inv i s c i' s' c' :
  Matches Eol i s c i' s' c' -> s = [] /\ i' = i /\ s' = [] /\ c' = c.
Proof. inversion 1; subst; auto. Qed.

Lemma Matches_Eps_inv i s c i' s' c' :
  Matches Eps i s c i' s' c' -> i' = i /\ s' = s /\ c' = c.
Proof. inversion 1; subst; auto. Qed.

Lemma Matches_capture_inv p lo hi i s c i' s' c' :
  Matches (Group (Quant p lo hi)) i s c i' s' c' ->
  exists a, s = a ++ s' /\ i' = (i + length a)%nat /\ c' = c ++ [a]
            /\ (lo <= length a)%nat /\ within (length a) hi
            /\ forallb (mem p) a = true.
Proof.
  inversion 1 as [| | | | |r0 i0 s0 c0 i1 s1 c1 Hq|]; subst.
  inversion Hq; subst. exists (take n s).
  rewrite take_drop, length_take, Nat.min_l by lia.
  replace (i + n - i)%nat with n by lia. auto 10.
Qed.

Lemma Matches_literal l i s c :
  Matches (cat (map Chr l)) i (l ++ s) c (i + length l) s c.
Proof.
  revert i. induction l as [|x l IH]; intros i; simpl.
  - rewrite Nat.add_0_r. constructor.
  - eapply M_Seq; [constructor|]. rewrite Nat.add_succ_r. apply (IH (S i)).
Qed.

Lemma Matches_capture p lo hi a i s c :
  (lo <= length a)%nat -> within (length a) hi -> forallb (mem p) a = true ->
  Matches (Group (Quant p lo hi)) i (a ++ s) c (i + length a) s (c ++ [a]).
Proof.
  intros Hlo Hhi Hall.
  pose proof (M_Quant p lo hi (length a) i (a ++ s) c Hlo Hhi) as Hq.
  rewrite take_app_length, drop_app_length in Hq.
  specialize (Hq ltac:(rewrite length_app; lia) Hall).
  apply M_Group in Hq.
  replace (i + length a - i)%nat with (length a) in Hq by lia.
  rewrite take_app_length in Hq. exact Hq.
Qed.

(** A pattern that starts with ^ matches at position 0 or not at all. *)
Lemma search_anchored r i s : search (Seq Bol r) (S i) s = None.
Proof. revert i. induction s as [|x s IH]; intros i; simpl; auto. Qed.

Lemma str_match_anchored r s :
  str_match s (Seq Bol r)
  = rmatch (Seq Bol r) 0 s [] (fun i' _ caps => Some (take (i' - 0) s :: caps)).
Proof.
  unfold str_match. destruct s as [|x s]; simpl.
  - destruct (rmatch r 0 [] [] _); reflexivity.
  - rewrite search_anchored. destruct (rmatch r 0 (x :: s) [] _); reflexivity.
Qed.

(** An anchored pattern returns the match array of any way to match that is
    the only one. *)
Lemma anchored_unique r s i' c' :
  Matches (Seq Bol r) 0 s [] i' [] c' ->
  (forall i2 s2 c2, Matches (Seq Bol r) 0 s [] i2 s2 c2 -> s2 = [] /\ c2 = c') ->
  str_match s (Seq Bol r) = Some (s :: c').
Proof.
  intros Hm Huniq. rewrite str_match_anchored.
  destruct (rmatch _ _ _ _ _) as [m|] eqn:E.
  - apply rmatch_sound in E as (i2 & s2 & c2 & Hm2 & E).
    destruct (Huniq _ _ _ Hm2) as [-> ->].
    apply Matches_pos in Hm2 as (u & Hu & ->). rewrite app_nil_r in Hu. subst u.
    inversion E; subst. f_equal. f_equal.
    rewrite Nat.sub_0_r. simpl. apply firstn_all.
  - eapply rmatch_complete in E; [|exact Hm]. discriminate.
Qed.

Lemma anchored_none r s :
  (forall i2 s2 c2, ~ Matches (Seq Bol r) 0 s [] i2 s2 c2) ->
  str_match s (Seq Bol r) = None.
Proof.
  intros Hno. rewrite str_match_anchored.
  destruct (rmatch _ _ _ _ _) as [m|] eqn:E; [|reflexivity].
  apply rmatch_sound in E as (i2 & s2 & c2 & Hm2 & _). destruct (Hno _ _ _ Hm2).
Qed.

(** ** The two patterns of the service *)

(** The character class of the patterns is the slug alphabet. *)
Lemma mem_slugClass c : mem slugClass c = slug_char c.
Proof.
  unfold mem, slugClass, existsb, item_mem, chr, slug_char, letter, digit.
  change (N_of_ascii "a") with 97%N. change (N_of_ascii "z") with 122%N.
  change (N_of_ascii "A") with 65%N. change (N_of_ascii "Z") with 90%N.
  change (N_of_ascii "0") with 48%N. change (N_of_ascii "9") with 57%N.
  change (N_of_ascii ".") with 46%N. change (N_of_ascii "-") with 45%N.
  change (N_of_ascii "_") with 95%N.
  destruct (N.leb 97 c), (N.leb c 122), (N.leb 65 c), (N.leb c 90),
    (N.leb 48 c), (N.leb c 57), (N.eqb c 46), (N.eqb c 45), (N.eqb c 95);
    reflexivity.
Qed.

Lemma forallb_slugClass a : forallb (mem slugClass) a = forallb slug_char a.
Proof. induction a as [|x a IH]; simpl in *; [reflexivity|]. rewrite IH, <- mem_slugClass. reflexivity. Qed.

Lemma is_slug_intro a :
  (1 <= length a)%nat -> within (length a) (Some 64%nat) ->
  forallb (mem slugClass) a = true -> is_slug a = true.
Proof.
  unfold is_slug, within. intros H1 H2 H3. rewrite <- forallb_slugClass, H3.
  rewrite !andb_true_iff. repeat split; apply Nat.leb_le; lia.
Qed.

Lemma is_slug_elim a :
  is_slug a = true ->
  (1 <= length a)%nat /\ within (length a) (Some 64%nat)
  /\ forallb (mem slugClass) a = true /\ forallb slug_char a = true.
Proof.
  unfold is_slug, within. rewrite !andb_true_iff, forallb_slugClass, !Nat.leb_le. tauto.
Qed.

Lemma is_filename_intro f :
  (1 <= length f)%nat -> forallb (mem Dot) f = true -> is_filename f = true.
Proof.
  unfold is_filename. intros H1 H2. rewrite andb_true_iff. split; [apply Nat.leb_le; lia | exact H2].
Qed.

Lemma is_filename_elim f :
  is_filename f = true -> (1 <= length f)%nat /\ forallb (mem Dot) f = true.
Proof. unfold is_filename. rewrite andb_true_iff, Nat.leb_le. tauto. Qed.

(** A slug ends at the first slash. *)
Lemma slug_split_unique a a' x x' :
  forallb slug_char a = true -> forallb slug_char a' = true ->
  a ++ 47%N :: x = a' ++ 47%N :: x' -> a = a' /\ x = x'.
Proof.
  revert a'. induction a as [|c a IH]; intros [|c' a'] Ha Ha' E; simpl in *.
  - inversion E; auto.
  - inversion E; subst. discriminate.
  - inversion E; subst. discriminate.
  - inversion E; subst. apply andb_true_iff in Ha as [_ Ha], Ha' as [_ Ha'].
    destruct (IH _ Ha Ha' H1) as [-> ->]. auto.
Qed.

Ltac invert_matches :=
  repeat match goal with
         | H : Matches (Seq _ _) _ _ _ _ _ _ |- _ =>
             apply Matches_Seq_inv in H as (? & ? & ? & ? & ?)
         | H : Matches (Chr _) _ _ _ _ _ _ |- _ =>
             apply Matches_Chr_inv in H as (? & ? & ?)
         | H : Matches Bol _ _ _ _ _ _ |- _ =>
             apply Matches_Bol_inv in H as (? & ? & ? & ?)
         | H : Matches Eol _ _ _ _ _ _ |- _ =>
             apply Matches_Eol_inv in H as (? & ? & ? & ?)
         | H : Matches Eps _ _ _ _ _ _ |- _ =>
             apply Matches_Eps_inv in H as (? & ? & ?)
         | H : Matches (Group (Quant _ _ _)) _ _ _ _ _ _ |- _ =>
             apply Matches_capture_inv in H as (? & ? & ? & ? & ? & ? & ?)
         end.

Lemma Matches_modVersionRegex_inv key i' s' c' :
  Matches modVersionRegex 0 key [] i' s' c' ->
  exists a b f, is_slug a = true /\ is_slug b = true /\ is_filename f = true
                /\ key = modKey a b f /\ s' = [] /\ c' = [a; b; f].
Proof.
  unfold modVersionRegex, Lit. simpl. intros H. invert_matches. subst.
  match goal with
  | Ha : forallb (mem slugClass) ?a = true, Hb : forallb (mem slugClass) ?b = true,
    Hf : forallb (mem Dot) ?f = true |- _ => exists a, b, f
  end.
  rewrite app_nil_r. simpl.
  repeat split; auto using is_slug_intro, is_filename_intro.
Qed.

Lemma Matches_modVersionRegex_intro a b f :
  is_slug a = true -> is_slug b = true -> is_filename f = true ->
  exists i', Matches modVersionRegex 0 (modKey a b f) [] i' [] [a; b; f].
Proof.
  intros (? & ? & ? & _)%is_slug_elim (? & ? & ? & _)%is_slug_elim (? & ?)%is_filename_elim.
  eexists. unfold modVersionRegex, Lit, modKey. simpl cat.
  eapply M_Seq; [constructor|].
  eapply M_Seq; [apply (Matches_literal (lit "mods"))|].
  eapply M_Seq; [apply M_Chr|].
  eapply M_Seq; [apply (Matches_capture slugClass); assumption|].
  eapply M_Seq; [apply M_Chr|].
  eapply M_Seq; [apply (Matches_capture slugClass); assumption|].
  eapply M_Seq; [apply M_Chr|].
  eapply M_Seq.
  - rewrite <- (app_nil_r f) at 1. apply (Matches_capture Dot); simpl; auto.
  - eapply M_Seq; constructor.
Qed.

Lemma modKey_inj a b f a' b' f' :
  is_slug a = true -> is_slug b = true -> is_slug a' = true -> is_slug b' = true ->
  modKey a b f = modKey a' b' f' -> a = a' /\ b = b' /\ f = f'.
Proof.
  intros (_ & _ & _ & Ha)%is_slug_elim (_ & _ & _ & Hb)%is_slug_elim
         (_ & _ & _ & Ha')%is_slug_elim (_ & _ & _ & Hb')%is_slug_elim E.
  unfold modKey in E. simpl in E. inversion E as [E1].
  apply slug_split_unique in E1 as [-> E2]; auto.
  apply slug_split_unique in E2 as [-> ->]; auto.
Qed.

(** The mod version pattern matches exactly the keys mods/a/b/f, and its
    groups 1 and 2 are then a and b. *)
Lemma modVersionRegex_match a b f :
  is_slug a = true -> is_slug b = true -> is_filename f = true ->
  str_match (modKey a b f) modVersionRegex = Some [modKey a b f; a; b; f].
Proof.
  intros Ha Hb Hf.
  destruct (Matches_modVersionRegex_intro a b f Ha Hb Hf) as (i' & Hm).
  apply (anchored_unique _ _ _ _ Hm).
  intros i2 s2 c2 (a' & b' & f' & Ha' & Hb' & Hf' & E & -> & ->)%Matches_modVersionRegex_inv.
  apply modKey_inj in E as (-> & -> & ->); auto.
Qed.

Lemma modVersionRegex_no_match key :
  (forall a b f, is_slug a = true -> is_slug b = true -> is_filename f = true ->
                 key <> modKey a b f) ->
  str_match key modVersionRegex = None.
Proof.
  intros Hno. apply (anchored_none _ key).
  intros i2 s2 c2 (a & b & f & Ha & Hb & Hf & E & _)%Matches_modVersionRegex_inv.
  exact (Hno a b f Ha Hb Hf E).
Qed.

Lemma Matches_launcherVersionRegex_inv key i' s' c' :
  Matches launcherVersionRegex 0 key [] i' s' c' ->
  exists v f, is_slug v = true /\ is_filename f = true
              /\ key = launcherKey v f /\ s' = [] /\ c' = [v; f].
Proof.
  unfold launcherVersionRegex, Lit. simpl. intros H. invert_matches. subst.
  match goal with
  | Hv : forallb (mem slugClass) ?v = true, Hf : forallb (mem Dot) ?f = true |- _ =>
      exists v, f
  end.
  rewrite app_nil_r. simpl.
  repeat split; auto using is_slug_intro, is_filename_intro.
Qed.

Lemma Matches_launcherVersionRegex_intro v f :
  is_slug v = true -> is_filename f = true ->
  exists i', Matches launcherVersionRegex 0 (launcherKey v f) [] i' [] [v; f].
Proof.
  intros (? & ? & ? & _)%is_slug_elim (? & ?)%is_filename_elim.
  eexists. unfold launcherVersionRegex, Lit, launcherKey. simpl cat.
  eapply M_Seq; [constructor|].
  eapply M_Seq; [apply (Matches_literal (lit "launcher"))|].
  eapply M_Seq; [apply M_Chr|].
  eapply M_Seq; [apply (Matches_capture slugClass); assumption|].
  eapply M_Seq; [apply M_Chr|].
  eapply M_Seq.
  - rewrite <- (app_nil_r f) at 1. apply (Matches_capture Dot); simpl; auto.
  - eapply M_Seq; constructor.
Qed.

Lemma launcherKey_inj v f v' f' :
  is_slug v = true -> is_slug v' = true ->
  launcherKey v f = launcherKey v' f' -> v = v' /\ f = f'.
Proof.
  intros (_ & _ & _ & Hv)%is_slug_elim (_ & _ & _ & Hv')%is_slug_elim E.
  unfold launcherKey in E. simpl in E. inversion E as [E1].
  apply slug_split_unique in E1 as [-> ->]; auto.
Qed.

Lemma launcherVersionRegex_match v f :
  is_slug v = true -> is_filename f = true ->
  str_match (launcherKey v f) launcherVersionRegex = Some [launcherKey v f; v; f].
Proof.
  intros Hv Hf.
  destruct (Matches_launcherVersionRegex_intro v f Hv Hf) as (i' & Hm).
  apply (anchored_unique _ _ _ _ Hm).
  intros i2 s2 c2 (v' & f' & Hv' & Hf' & E & -> & ->)%Matches_launcherVersionRegex_inv.
  apply launcherKey_inj in E as (-> & ->); auto.
Qed.

Lemma launcherVersionRegex_no_match key :
  (forall v f, is_slug v = true -> is_filename f = true -> key <> launcherKey v f) ->
  str_match key launcherVersionRegex = None.
Proof.
  intros Hno. apply (anchored_none _ key).
  intros i2 s2 c2 (v & f & Hv & Hf & E & _)%Matches_launcherVersionRegex_inv.
  exact (Hno v f Hv Hf E).
Qed.

Lemma launcherKey_not_modKey v f a b f' : launcherKey v f <> modKey a b f'.
Proof. unfold launcherKey, modKey. simpl. discriminate. Qed.

(** ** Classification *)

(** C4 as stated fails: it restricts the slugs only, and the file part of
    the patterns, (.+) up to the end, takes no line terminator. A key with
    good slugs and a line separator or a line feed in its file part names no
    target. *)
Lemma line_terminator_in_file_part_unrecognized :
  is_slug (lit "super-mod") = true
  /\ is_slug (lit "1.2.0") = true
  /\ classify (modKey (lit "super-mod") (lit "1.2.0") (lit "a" ++ [8232%N] ++ lit "b"))
     = None
  /\ is_slug (lit "3.4.5") = true
  /\ classify (launcherKey (lit "3.4.5") (lit "setup" ++ [10%N] ++ lit ".exe")) = None.
Proof. vm_compute. repeat split. Qed.

(** C4, as the code has it. Classification is a total function of the key:
    a key mods/<modSlug>/<versionSlug>/<filename> whose slugs are 1 to 64
    characters from letters, digits, dot, hyphen and underscore, and whose
    file name is one or more characters none of which is a line terminator
    (line feed, carriage return, U+2028, U+2029), yields the mod version
    target with exactly these two slugs; a key launcher/<versionSlug>/<filename>
    under the same conditions yields the launcher version target with that
    slug; every other key yields no target. *)
Theorem classify_by_shape (key : str) :
  (forall a b f, is_slug a = true -> is_slug b = true -> is_filename f = true ->
                 key = modKey a b f ->
                 classify key = Some (ModVersionTarget a b))
  /\ (forall v f, is_slug v = true -> is_filename f = true ->
                  key = launcherKey v f ->
                  classify key = Some (LauncherVersionTarget v))
  /\ ((forall a b f, is_slug a = true -> is_slug b = true -> is_filename f = true ->
                     key <> modKey a b f) ->
      (forall v f, is_slug v = true -> is_filename f = true ->
                   key <> launcherKey v f) ->
      classify key = None).
Proof.
  unfold classify. repeat split.
  - intros a b f Ha Hb Hf ->. rewrite modVersionRegex_match by assumption. reflexivity.
  - intros v f Hv Hf ->.
    rewrite modVersionRegex_no_match by (intros; apply launcherKey_not_modKey).
    rewrite launcherVersionRegex_match by assumption. reflexivity.
  - intros Hm Hl.
    rewrite modVersionRegex_no_match, launcherVersionRegex_no_match by assumption.
    reflexivity.
Qed.

Lemma classify_by_shape_witness :
  classify (lit "mods/super-mod/1.2.0/file.zip")
  = Some (ModVersionTarget (lit "super-mod") (lit "1.2.0"))
  /\ classify (lit "launcher/3.4.5/setup.exe")
     = Some (LauncherVersionTarget (lit "3.4.5"))
  /\ classify (lit "random/unrelated/path") = None.
Proof.
  split; [|split].
  - apply (proj1 (classify_by_shape _) (lit "super-mod") (lit "1.2.0") (lit "file.zip"));
      vm_compute; reflexivity.
  - apply (proj1 (proj2 (classify_by_shape _)) (lit "3.4.5") (lit "setup.exe"));
      vm_compute; reflexivity.
  - apply (proj2 (proj2 (classify_by_shape (lit "random/unrelated/path")))).
    + intros a b f _ _ _ E. vm_compute in E. discriminate E.
    + intros v f _ _ E. vm_compute in E. discriminate E.
Defined.

(** ** Which tables a computation leaves alone *)

Ltac mnorm := unfold mbind, M_bind, mret, M_ret in *.

Section Frame.
Context {B : Type} (proj : World -> B).
Hypothesis proj_faults : forall l w, proj (with_faults l w) = proj w.
Hypothesis proj_unhandled : forall l w, proj (with_unhandled l w) = proj w.
Hypothesis proj_console : forall l w, proj (with_console l w) = proj w.

Lemma preserves_ret {A} (a : A) : preserves proj (ret a).
Proof. intros w. reflexivity. Qed.

Lemma preserves_bind {A C} (m : M A) (f : A -> M C) :
  preserves proj m -> (forall a, preserves proj (f a)) -> preserves proj (bind m f).
Proof.
  intros Hm Hf w. unfold bind. specialize (Hm w).
  destruct (m w) as [[a|e] w']; simpl in *; [rewrite Hf|]; exact Hm.
Qed.

Lemma preserves_try_catch {A} (m : M A) (h : Error -> M A) :
  preserves proj m -> (forall e, preserves proj (h e)) -> preserves proj (try_catch m h).
Proof.
  intros Hm Hh w. unfold try_catch. specialize (Hm w).
  destruct (m w) as [[a|e] w']; simpl in *; [|rewrite Hh]; exact Hm.
Qed.

Lemma preserves_unawaited {A} (m : M A) : preserves proj m -> preserves proj (unawaited m).
Proof.
  intros Hm w. unfold unawaited. specialize (Hm w).
  destruct (m w) as [[a|e] w']; simpl in *; [|rewrite proj_unhandled]; exact Hm.
Qed.

Lemma preserves_console_write e : preserves proj (console_write e).
Proof. intros w. simpl. apply proj_console. Qed.

Lemma preserves_query {A} (op : World -> A * World) :
  (forall w, proj (snd (op w)) = proj w) -> preserves proj (query op).
Proof.
  intros Hop w. unfold query. destruct (faults w) as [|[|] fs]; simpl.
  - specialize (Hop w). destruct (op w); exact Hop.
  - apply proj_faults.
  - specialize (Hop (with_faults fs w)). destruct (op _); simpl in *.
    rewrite Hop. apply proj_faults.
Qed.

End Frame.

(** The guard of the increment is the test for an empty result, so that the
    loop only ever runs over no rows. *)
Lemma countModVersionDownload_preserves {B} (proj : World -> B) modSlug versionSlug :
  (forall l w, proj (with_faults l w) = proj w) ->
  (forall l w, proj (with_unhandled l w) = proj w) ->
  (forall l w, proj (with_console l w) = proj w) ->
  preserves proj (countModVersionDownload modSlug versionSlug).
Proof.
  intros Hf Hu Hc. unfold countModVersionDownload. mnorm.
  apply preserves_try_catch; [|intros; apply preserves_console_write; assumption].
  apply preserves_bind.
  - apply preserves_query; auto.
  - intros [|r l]; simpl.
    + apply preserves_bind; [apply preserves_console_write; assumption|].
      intros _. apply preserves_ret.
    + apply preserves_ret.
Qed.

Lemma countLauncherVersionDownload_preserves {B} (proj : World -> B) versionSlug :
  (forall l w, proj (with_faults l w) = proj w) ->
  (forall l w, proj (with_unhandled l w) = proj w) ->
  (forall l w, proj (with_console l w) = proj w) ->
  preserves proj (countLauncherVersionDownload versionSlug).
Proof.
  intros Hf Hu Hc. unfold countLauncherVersionDownload. mnorm.
  apply preserves_try_catch; [|intros; apply preserves_console_write; assumption].
  apply preserves_bind.
  - apply preserves_query; auto.
  - intros [|r l]; simpl.
    + apply preserves_bind; [apply preserves_console_write; assumption|].
      intros _. apply preserves_ret.
    + apply preserves_ret.
Qed.

(** [countDownload] writes to no table, whatever the key and the catalog. *)
Lemma countDownload_preserves {B} (proj : World -> B) notif :
  (forall l w, proj (with_faults l w) = proj w) ->
  (forall l w, proj (with_unhandled l w) = proj w) ->
  (forall l w, proj (with_console l w) = proj w) ->
  preserves proj (countDownload notif).
Proof.
  intros Hf Hu Hc. unfold countDownload.
  destruct (classify (key notif)) as [[a b|v]|].
  - apply countModVersionDownload_preserves; assumption.
  - apply countLauncherVersionDownload_preserves; assumption.
  - apply preserves_console_write; assumption.
Qed.

(** Neither does it throw. *)
Lemma countDownload_returns notif w : fst (countDownload notif w) = Ok tt.
Proof.
  unfold countDownload. destruct (classify (key notif)) as [[a b|v]|]; [| |reflexivity].
  - unfold countModVersionDownload, try_catch, ModVersion_findBy, query. mnorm. unfold bind.
    destruct (faults w) as [|[|] fs]; simpl; try reflexivity;
      destruct (filter _ _); reflexivity.
  - unfold countLauncherVersionDownload, try_catch, LauncherVersion_findBy, query.
    mnorm. unfold bind.
    destruct (faults w) as [|[|] fs]; simpl; try reflexivity;
      destruct (filter _ _); reflexivity.
Qed.

(** ** The handler of a notification *)

Lemma query_ok {A} (op : World -> A * World) w :
  faults w = [] -> query op w = (Ok (fst (op w)), snd (op w)).
Proof. intros H. unfold query. rewrite H. destruct (op w); reflexivity. Qed.

(** [processNotification] is [observe] followed by [countDownload] when the
    answer is yes. *)
Lemma processNotification_observe now now' notif w :
  processNotification now now' notif w
  = bind (observe now now' (key notif) (ipHashOf (host notif)))
         (fun fresh : bool => if fresh then countDownload notif else ret tt) w.
Proof.
  unfold processNotification, observe. mnorm. unfold bind.
  destruct (DownloadTracker_findOne _ _ w) as [[[t|]|e] w1]; [| |reflexivity].
  - destruct (unawaited _ w1) as [[[]|e] w2]; reflexivity.
  - destruct (DownloadTracker_save _ w1) as [[[]|e] w2]; reflexivity.
Qed.

(** What [observe] does when the data base answers. *)
Lemma observe_ok now now' path ipHash w :
  faults w = [] ->
  observe now now' path ipHash w
  = (Ok match trackers w !! (path, ipHash) with
        | None => true
        | Some e => e <? now'
        end,
     with_trackers (<[(path, ipHash) := now + TRACKING_DURATION]> (trackers w)) w).
Proof.
  intros Hf. unfold observe, DownloadTracker_findOne, DownloadTracker_save.
  mnorm. unfold bind. rewrite query_ok by assumption. simpl.
  destruct (trackers w !! (path, ipHash)) as [e|]; simpl.
  - unfold unawaited. rewrite query_ok by assumption. reflexivity.
  - rewrite query_ok by assumption. reflexivity.
Qed.

(** C2, as the code has it. When the data base answers, [observe] is fresh
    exactly when there is no row for (path, ipHash) or the row's expiresAt is
    strictly before the clock of the comparison, expiresAt < now'; an observe
    at the very instant expiresAt is not fresh. In all three cases the row
    afterwards exists with expiresAt = now + TRACKING_DURATION, [now] being
    the clock on entry; and the handler calls [countDownload] exactly when
    the observe is fresh. *)
Theorem observe_fresh_iff_strictly_lapsed (now now' : Z)
        (notif : ObjectAccessedGetNotification) (w : World) :
  faults w = [] ->
  exists (fresh : bool) (w' : World),
    observe now now' (key notif) (ipHashOf (host notif)) w = (Ok fresh, w')
    /\ (fresh = true <->
        trackers w !! trackerKey notif = None
        \/ exists e, trackers w !! trackerKey notif = Some e /\ e < now')
    /\ trackers w' !! trackerKey notif = Some (now + TRACKING_DURATION)
    /\ processNotification now now' notif w
       = (if fresh then countDownload notif w' else (Ok tt, w')).
Proof.
  intros Hf. eexists _, _. split; [apply observe_ok; assumption|].
  unfold trackerKey. split; [|split].
  - destruct (trackers w !! _) as [e|]; [|intuition].
    rewrite Z.ltb_lt. split.
    + intros H. right. exists e. auto.
    + intros [H|(e' & H & Hlt)]; [discriminate|]. inversion H; subst. exact Hlt.
  - simpl. apply lookup_insert_eq.
  - rewrite processNotification_observe. mnorm. unfold bind.
    rewrite observe_ok by assumption.
    destruct (match trackers w !! _ with Some e => e <? now' | None => true end); reflexivity.
Qed.

Lemma observe_fresh_iff_strictly_lapsed_witness :
  exists (fresh : bool) (w' : World),
    observe 1000 1000 (key notifSuperMod) (ipHashOf (host notifSuperMod)) catalogWorld
    = (Ok fresh, w')
    /\ (fresh = true <->
        trackers catalogWorld !! trackerKey notifSuperMod = None
        \/ exists e, trackers catalogWorld !! trackerKey notifSuperMod = Some e /\ e < 1000)
    /\ trackers w' !! trackerKey notifSuperMod = Some (1000 + TRACKING_DURATION)
    /\ processNotification 1000 1000 notifSuperMod catalogWorld
       = (if fresh then countDownload notifSuperMod w' else (Ok tt, w')).
Proof. apply (observe_fresh_iff_strictly_lapsed 1000 1000 notifSuperMod catalogWorld). reflexivity. Defined.

(** C2 as stated fails at the boundary: with a row whose expiresAt is 1000,
    an observe at the instant 1000 (so that now >= expiresAt) is not fresh,
    and the handler does not count: the unknown key would have been
    reported on the console. *)
Lemma observe_at_boundary_not_fresh :
  trackers boundaryWorld !! trackerKey notifUnrelated = Some 1000
  /\ 1000 >= 1000
  /\ fst (observe 1000 1000 (key notifUnrelated) (ipHashOf (host notifUnrelated))
                  boundaryWorld)
     = Ok false
  /\ console (snd (processNotification 1000 1000 notifUnrelated boundaryWorld)) = []
  /\ console (snd (processNotification 1001 1001 notifUnrelated boundaryWorld))
     = [UnknownUpload (key notifUnrelated)].
Proof. vm_compute. repeat split; congruence. Qed.

(** C3 as stated fails: the unrelated key of a first notification gets a
    tracker row, although it names no target. *)
Lemma unrelated_key_gets_tracker_row :
  classify (key notifUnrelated) = None
  /\ trackers emptyWorld !! trackerKey notifUnrelated = None
  /\ trackers (snd (processNotification 1000 1000 notifUnrelated emptyWorld))
       !! trackerKey notifUnrelated
     = Some 61000.
Proof. vm_compute. repeat split. Qed.

(** C3, as the code has it. A notification whose key matches neither pattern
    is not stopped at classification: when the data base answers, the handler
    creates or refreshes the tracker row of (key, ipHash) with
    expiresAt = now + TRACKING_DURATION as for any other key, and only a
    fresh visit reaches the classification, which writes one line to the
    console; a visit that is not fresh writes none. No catalog row changes
    and the handler returns without throwing. *)
Theorem unrecognized_key_tracked_not_counted (now now' : Z)
        (notif : ObjectAccessedGetNotification) (w : World) :
  classify (key notif) = None ->
  faults w = [] ->
  let fresh := match trackers w !! trackerKey notif with
               | None => true
               | Some e => e <? now'
               end in
  let w' := snd (processNotification now now' notif w) in
  fst (processNotification now now' notif w) = Ok tt
  /\ trackers w' = <[trackerKey notif := now + TRACKING_DURATION]> (trackers w)
  /\ modVersions w' = modVersions w
  /\ launcherVersions w' = launcherVersions w
  /\ console w' = console w ++ (if fresh then [UnknownUpload (key notif)] else []).
Proof.
  intros Hc Hf. cbv zeta. rewrite processNotification_observe. unfold bind.
  rewrite observe_ok by assumption. unfold trackerKey.
  destruct (match trackers w !! _ with Some e => e <? now' | None => true end).
  - unfold countDownload. rewrite Hc. simpl. auto.
  - simpl. rewrite app_nil_r. auto.
Qed.

Lemma unrecognized_key_tracked_not_counted_witness :
  fst (processNotification 1000 1000 notifUnrelated catalogWorld) = Ok tt
  /\ trackers (snd (processNotification 1000 1000 notifUnrelated catalogWorld))
     = <[trackerKey notifUnrelated := 1000 + TRACKING_DURATION]> (trackers catalogWorld)
  /\ modVersions (snd (processNotification 1000 1000 notifUnrelated catalogWorld))
     = modVersions catalogWorld
  /\ launcherVersions (snd (processNotification 1000 1000 notifUnrelated catalogWorld))
     = launcherVersions catalogWorld
  /\ console (snd (processNotification 1000 1000 notifUnrelated catalogWorld))
     = console catalogWorld
       ++ (if match trackers catalogWorld !! trackerKey notifUnrelated with
              | None => true
              | Some e => e <? 1000
              end
           then [UnknownUpload (key notifUnrelated)] else []).
Proof.
  apply (unrecognized_key_tracked_not_counted 1000 1000 notifUnrelated catalogWorld).
  - vm_compute. reflexivity.
  - reflexivity.
Defined.

(** C7. The handler has no try around the tracker calls: when the read of
    the tracker row fails, the failure leaves [processNotification] as an
    exception, and nothing is written to the console. *)
Theorem tracker_read_failure_escapes (now now' : Z)
        (notif : ObjectAccessedGetNotification) (w : World) (fs : list bool) :
  faults w = true :: fs ->
  processNotification now now' notif w = (Throw QueryFailed, with_faults fs w).
Proof.
  intros Hf. unfold processNotification, DownloadTracker_findOne, query.
  mnorm. unfold bind. rewrite Hf. reflexivity.
Qed.

Lemma tracker_read_failure_escapes_witness :
  processNotification 1000 1000 notifSuperMod (with_faults [true] catalogWorld)
  = (Throw QueryFailed, with_faults [] (with_faults [true] catalogWorld)).
Proof.
  apply (tracker_read_failure_escapes 1000 1000 notifSuperMod
           (with_faults [true] catalogWorld) []).
  reflexivity.
Defined.

(** The awaited write of a new row is not guarded either. *)
Lemma tracker_write_failure_escapes now now' notif w fs :
  faults w = false :: true :: fs ->
  trackers w !! trackerKey notif = None ->
  fst (processNotification now now' notif w) = Throw QueryFailed.
Proof.
  intros Hf Hk. unfold processNotification, DownloadTracker_findOne, DownloadTracker_save, query.
  mnorm. unfold bind. rewrite Hf. simpl. unfold trackerKey in Hk. rewrite Hk. reflexivity.
Qed.

(** The failures of the catalog are caught, as are those of the sweep. *)
Lemma removeExpiredTrackers_returns now w : fst (removeExpiredTrackers now w) = Ok tt.
Proof.
  unfold removeExpiredTrackers, try_catch, DownloadTracker_find, query. mnorm. unfold bind.
  destruct (faults w) as [|[|] fs]; reflexivity.
Qed.

(** ** The counters *)

(** C1. The first notification for mods/super-mod/1.2.0/file.zip from
    1.2.3.4: the key names super-mod@1.2.0, the catalog has that one row, the
    visit is fresh and [countDownload] is called; the row still has
    downloadCount 0 afterwards, where the design says 1. A result of
    [findBy] that is not empty skips the increment, which stands under the
    test for an empty result. *)
Theorem first_download_leaves_count_at_zero :
  classify (key notifSuperMod) = Some (ModVersionTarget (lit "super-mod") (lit "1.2.0"))
  /\ fst (ModVersion_findBy (lit "super-mod") (lit "1.2.0") catalogWorld) = Ok [superMod]
  /\ fst (observe 1000 1000 (key notifSuperMod) (ipHashOf (host notifSuperMod)) catalogWorld)
     = Ok true
  /\ fst (processNotification 1000 1000 notifSuperMod catalogWorld) = Ok tt
  /\ modVersions (snd (processNotification 1000 1000 notifSuperMod catalogWorld))
     = [superMod]
  /\ ModVersion.downloadCount superMod = 0
  /\ console (snd (processNotification 1000 1000 notifSuperMod catalogWorld)) = [].
Proof. vm_compute. repeat split. Qed.

(** The same for a launcher version. *)
Lemma launcher_download_leaves_count_at_zero :
  classify (key notifLauncher) = Some (LauncherVersionTarget (lit "3.4.5"))
  /\ fst (LauncherVersion_findBy (lit "3.4.5") catalogWorld) = Ok [launcher345]
  /\ launcherVersions (snd (processNotification 1000 1000 notifLauncher catalogWorld))
     = [launcher345]
  /\ LauncherVersion.downloadCount launcher345 = 0.
Proof. vm_compute. repeat split. Qed.

(** No notification changes a row of the catalog. *)
Lemma processNotification_preserves_catalog now now' notif w :
  modVersions (snd (processNotification now now' notif w)) = modVersions w
  /\ launcherVersions (snd (processNotification now now' notif w)) = launcherVersions w.
Proof.
  assert (H : preserves (fun w => (modVersions w, launcherVersions w))
                        (processNotification now now' notif)).
  { unfold processNotification. mnorm.
    apply preserves_bind; [apply preserves_query; reflexivity|].
    intros [t|].
    - apply preserves_bind.
      + apply preserves_unawaited; [reflexivity|]. apply preserves_query; reflexivity.
      + intros _. destruct (_ <? _); [|apply preserves_ret].
        apply countDownload_preserves; reflexivity.
    - apply preserves_bind; [apply preserves_query; reflexivity|].
      intros _. apply countDownload_preserves; reflexivity. }
  specialize (H w). simpl in H. inversion H. auto.
Qed.

(** When no failure is pending, none is after [countDownload]. *)
Lemma countDownload_no_faults notif w :
  faults w = [] -> faults (snd (countDownload notif w)) = [].
Proof.
  intros Hf. unfold countDownload. destruct (classify (key notif)) as [[a b|v]|]; [| |exact Hf].
  - unfold countModVersionDownload, try_catch, ModVersion_findBy. mnorm. unfold bind.
    rewrite query_ok by assumption. simpl.
    destruct (filter _ _); simpl; exact Hf.
  - unfold countLauncherVersionDownload, try_catch, LauncherVersion_findBy. mnorm. unfold bind.
    rewrite query_ok by assumption. simpl.
    destruct (filter _ _); simpl; exact Hf.
Qed.

(** A second notification for the same key from the same host, while the
    row has not lapsed, is not counted: this half of the idempotence holds. *)
Lemma duplicate_within_window_not_counted t1 t2 notif w :
  faults w = [] ->
  t2 <= t1 + TRACKING_DURATION ->
  let w1 := snd (processNotification t1 t1 notif w) in
  fst (observe t2 t2 (key notif) (ipHashOf (host notif)) w1) = Ok false.
Proof.
  intros Hf Ht w1.
  assert (Hw1 : faults w1 = [] /\ trackers w1 !! trackerKey notif = Some (t1 + TRACKING_DURATION)).
  { subst w1. rewrite processNotification_observe. unfold bind.
    rewrite observe_ok by assumption.
    set (w' := with_trackers _ w).
    assert (Hw' : faults w' = [] /\ trackers w' !! trackerKey notif = Some (t1 + TRACKING_DURATION)).
    { split; [exact Hf|]. simpl. apply lookup_insert_eq. }
    destruct (match trackers w !! _ with Some e => e <? t1 | None => true end); [|exact Hw'].
    destruct Hw' as [Hf' Hk']. split.
    - apply countDownload_no_faults. exact Hf'.
    - rewrite (countDownload_preserves (fun w => trackers w !! trackerKey notif)); auto. }
  destruct Hw1 as [Hf1 Hk1]. rewrite observe_ok by assumption.
  unfold trackerKey in Hk1. rewrite Hk1. simpl. f_equal.
  apply Z.ltb_ge. lia.
Qed.

(** C8. The notification for mods/super-mod/1.2.0/file.zip from 1.2.3.4
    delivered twice within one tracking window: the first delivery is fresh,
    the second is not, and downloadCount of super-mod@1.2.0 is 0 after both,
    where the design says it went up by exactly 1. The second delivery is
    rightly not counted; the first is not counted either, by the defect of
    C1. *)
Theorem duplicate_delivery_counts_nothing :
  fst (observe 1000 1000 (key notifSuperMod) (ipHashOf (host notifSuperMod)) catalogWorld)
  = Ok true
  /\ fst (observe 2000 2000 (key notifSuperMod) (ipHashOf (host notifSuperMod))
                  (snd (processNotification 1000 1000 notifSuperMod catalogWorld)))
     = Ok false
  /\ modVersions
       (snd (processNotification 2000 2000 notifSuperMod
               (snd (processNotification 1000 1000 notifSuperMod catalogWorld))))
     = [superMod]
  /\ ModVersion.downloadCount superMod = 0.
Proof. vm_compute. repeat split. Qed.

(** ** The sweep *)

(** The rows that the query of the sweep returns are those that expire
    after [now]. *)
Lemma sweep_query_rows now w row :
  faults w = [] ->
  (exists rows, fst (DownloadTracker_find (MoreThan now) w) = Ok rows /\ row ∈ rows)
  <-> trackers w !! (path row, ipHash row) = Some (expiresAt row) /\ now < expiresAt row.
Proof.
  intros Hf. unfold DownloadTracker_find. rewrite query_ok by assumption. simpl. split.
  - intros (rows & E & Hin). inversion E; subst. clear E.
    apply list_elem_of_fmap in Hin as ([[p h] e] & -> & Hin). simpl.
    apply elem_of_map_to_list in Hin.
    apply map_lookup_filter_Some in Hin as [Hl Hc]. auto.
  - intros [Hl Hc]. eexists. split; [reflexivity|].
    apply list_elem_of_fmap. exists ((path row, ipHash row), expiresAt row).
    split; [destruct row; reflexivity|].
    apply elem_of_map_to_list. apply map_lookup_filter_Some. auto.
Qed.

(** The sweep does nothing with them: the table is as before. *)
Lemma removeExpiredTrackers_preserves_trackers now w :
  trackers (snd (removeExpiredTrackers now w)) = trackers w.
Proof.
  apply (preserves_try_catch trackers).
  - mnorm. apply preserves_bind; [|intros; apply preserves_ret].
    apply preserves_query; reflexivity.
  - intros e. apply preserves_console_write. reflexivity.
Qed.

(** C5. A sweep at 200 over a table with a row that expired at 100 and a
    row that expires at 300: the query selects the row of 300, whose expiry
    lies in the future, and not the row of 100, which has elapsed; nothing is
    deleted or reported, the expired row is still there. The design has the
    sweep select the rows with expiresAt <= now. *)
Theorem sweep_selects_unexpired_rows :
  fst (DownloadTracker_find (MoreThan 200) sweepWorld)
  = Ok [{| ipHash := ipHashOf (lit "1.2.3.4"); path := lit "mods/a/2/new.zip";
           expiresAt := 300 |}]
  /\ removeExpiredTrackers 200 sweepWorld = (Ok tt, sweepWorld)
  /\ trackers (snd (removeExpiredTrackers 200 sweepWorld))
       !! (lit "mods/a/1/old.zip", ipHashOf (lit "1.2.3.4"))
     = Some 100.
Proof. vm_compute. repeat split. Qed.

(** ** Construction and start *)

(** The constructor either throws, in the one case in which it asks the
    library for a client, or returns a service without client. *)
Lemma constructor_outcome cfg0 w :
  constructor cfg0 w
  = if truthy (accessKey (storage cfg0)) && truthy (secretKey (storage cfg0))
       && negb (truthy (endPoint (storage cfg0)))
    then (Throw InvalidEndpointError, w)
    else (Ok {| cfg := cfg0; client := None;
                modNotificationEmitter := None; removalTask := None |},
          with_console (console w ++ [MissingStorageClientConfig]) w).
Proof.
  unfold constructor, new_Client, throw. mnorm. unfold bind.
  destruct (truthy (accessKey _)), (truthy (secretKey _)), (truthy (endPoint _));
    reflexivity.
Qed.

(** C6. With access key, secret key and endpoint all present the
    constructor writes the warning and makes no client, and [startListening]
    subscribes to nothing and schedules no sweep: the service is in the no-op
    mode although no credential is missing. The test of the constructor
    negates the endpoint: it is with the endpoint missing that a client is
    asked for, which the library refuses, so that the constructor throws
    where the design has it warn and go on. *)
Theorem full_credentials_give_no_client :
  constructor fullCfg emptyWorld
  = (Ok {| cfg := fullCfg; client := None;
           modNotificationEmitter := None; removalTask := None |},
     with_console [MissingStorageClientConfig] emptyWorld)
  /\ startListening {| cfg := fullCfg; client := None;
                       modNotificationEmitter := None; removalTask := None |}
                    emptyWorld
     = (Ok {| cfg := fullCfg; client := None;
              modNotificationEmitter := None; removalTask := None |},
        with_console [NoStorageClient] emptyWorld)
  /\ constructor noEndPointCfg emptyWorld = (Throw InvalidEndpointError, emptyWorld).
Proof. vm_compute. repeat split. Qed.

(** C9. Both durations are 60 000 milliseconds, one minute, and not the
    3 600 000 milliseconds of the hour that their comments and the design
    give. *)
Theorem durations_are_one_minute :
  TRACKING_DURATION = 60000 /\ RESET_INTERVAL = 60000
  /\ TRACKING_DURATION <> 3600000 /\ RESET_INTERVAL <> 3600000.
Proof. vm_compute. repeat split; discriminate. Qed.

(** ** The tracker rows that the handler writes *)

Lemma DownloadTracker_save_trackers row w :
  trackers (snd (DownloadTracker_save row w)) = trackers w
  \/ trackers (snd (DownloadTracker_save row w))
     = <[(path row, ipHash row) := expiresAt row]> (trackers w).
Proof.
  unfold DownloadTracker_save, query. destruct (faults w) as [|[|] fs]; simpl; auto.
Qed.

Lemma DownloadTracker_findOne_row p h w :
  trackers (snd (DownloadTracker_findOne p h w)) = trackers w
  /\ forall t, fst (DownloadTracker_findOne p h w) = Ok (Some t) -> path t = p /\ ipHash t = h.
Proof.
  unfold DownloadTracker_findOne, query.
  destruct (faults w) as [|[|] fs]; simpl; (split; [reflexivity|]); intros t E;
    try discriminate; destruct (trackers w !! (p, h)); inversion E; auto.
Qed.

Lemma observe_trackers now now' path ipHash w :
  trackers (snd (observe now now' path ipHash w)) = trackers w
  \/ trackers (snd (observe now now' path ipHash w))
     = <[(path, ipHash) := now + TRACKING_DURATION]> (trackers w).
Proof.
  unfold observe. mnorm. unfold bind.
  destruct (DownloadTracker_findOne_row path ipHash w) as [Hw1 Hrow].
  destruct (DownloadTracker_findOne path ipHash w) as [[[t|]|e] w1]; simpl in *.
  - destruct (Hrow t eq_refl) as [Hp Hh].
    pose proof (DownloadTracker_save_trackers
                  (set_expiresAt (now + TRACKING_DURATION) t) w1) as Hs.
    unfold unawaited.
    destruct (DownloadTracker_save _ w1) as [[[]|e] w2]; simpl in *;
      rewrite Hp, Hh, Hw1 in Hs; exact Hs.
  - pose proof (DownloadTracker_save_trackers
                  (DownloadTracker_create ipHash path (now + TRACKING_DURATION)) w1) as Hs.
    destruct (DownloadTracker_save _ w1) as [[[]|e] w2]; simpl in *;
      rewrite Hw1 in Hs; exact Hs.
  - left. exact Hw1.
Qed.

Lemma processNotification_trackers now now' notif w :
  trackers (snd (processNotification now now' notif w)) = trackers w
  \/ trackers (snd (processNotification now now' notif w))
     = <[trackerKey notif := now + TRACKING_DURATION]> (trackers w).
Proof.
  rewrite processNotification_observe. unfold bind, trackerKey.
  pose proof (observe_trackers now now' (key notif) (ipHashOf (host notif)) w) as H.
  destruct (observe _ _ _ _ w) as [[[|]|e] w1]; simpl in *; auto.
  rewrite (countDownload_preserves trackers); auto.
Qed.

(** C10 as stated fails: the new expiry is computed from the clock read on
    entry, and the row is written after the awaited lookup. A handler that
    enters at 0 and reads the clock again at 100000 writes a row that expires
    at 60000, an instant that has passed when it is written. *)
Lemma row_written_after_its_expiry :
  trackers boundaryWorld !! trackerKey notifUnrelated = Some 1000
  /\ trackers (snd (processNotification 0 100000 notifUnrelated boundaryWorld))
       !! trackerKey notifUnrelated
     = Some 60000
  /\ 60000 < 100000.
Proof. split; [|split]; [vm_compute; reflexivity | vm_compute; reflexivity | lia]. Qed.

(** C10, as the code has it. Whatever the data base does, a notification
    leaves every tracker row as it was, except that the row of its own
    (key, ipHash) may have been written, and then with
    expiresAt = now + TRACKING_DURATION, [now] being the clock that the
    handler read on entry. This instant is strictly after [now]; it is after
    the second reading [now'] of the clock, which precedes the write of an
    update, exactly when that reading is less than TRACKING_DURATION after
    the entry. No row is deleted. *)
Theorem tracker_rows_written_expire_after_entry (now now' : Z)
        (notif : ObjectAccessedGetNotification) (w : World) :
  dom (trackers w) ⊆ dom (trackers (snd (processNotification now now' notif w)))
  /\ forall k,
       trackers (snd (processNotification now now' notif w)) !! k = trackers w !! k
       \/ (k = trackerKey notif
           /\ exists v,
               trackers (snd (processNotification now now' notif w)) !! k = Some v
               /\ v = now + TRACKING_DURATION
               /\ now < v
               /\ (now' < v <-> now' - now < TRACKING_DURATION)).
Proof.
  destruct (processNotification_trackers now now' notif w) as [-> | ->].
  - split; [reflexivity | auto].
  - split.
    + rewrite dom_insert_L. set_solver.
    + intros k. destruct (decide (k = trackerKey notif)) as [->|Hne].
      * right. split; [reflexivity|]. exists (now + TRACKING_DURATION).
        split; [apply lookup_insert_eq|]. unfold TRACKING_DURATION. lia.
      * left. apply lookup_insert_ne. congruence.
Qed.

(** * Further properties of the service *)

(** ** The patterns, read as a whole *)

Lemma anchored_inv r s m :
  str_match s (Seq Bol r) = Some m ->
  exists i' s' c', Matches (Seq Bol r) 0 s [] i' s' c' /\ m = take (i' - 0) s :: c'.
Proof.
  rewrite str_match_anchored. intros H.
  apply rmatch_sound in H as (i' & s' & c' & Hm & E).
  inversion E; subst. eauto.
Qed.

Lemma modVersionRegex_match_inv key m :
  str_match key modVersionRegex = Some m ->
  exists a b f, is_slug a = true /\ is_slug b = true /\ is_filename f = true
                /\ key = modKey a b f /\ m = [key; a; b; f].
Proof.
  intros H. apply (anchored_inv _ key m) in H as (i' & s' & c' & Hm & ->).
  pose proof (Matches_pos _ _ _ _ _ _ _ Hm) as (u & Hu & ->).
  apply Matches_modVersionRegex_inv in Hm as (a & b & f & Ha & Hb & Hf & E & -> & ->).
  rewrite app_nil_r in Hu. subst u.
  exists a, b, f. repeat split; auto.
  rewrite Nat.sub_0_r. simpl. rewrite firstn_all. reflexivity.
Qed.

Lemma launcherVersionRegex_match_inv key m :
  str_match key launcherVersionRegex = Some m ->
  exists v f, is_slug v = true /\ is_filename f = true
              /\ key = launcherKey v f /\ m = [key; v; f].
Proof.
  intros H. apply (anchored_inv _ key m) in H as (i' & s' & c' & Hm & ->).
  pose proof (Matches_pos _ _ _ _ _ _ _ Hm) as (u & Hu & ->).
  apply Matches_launcherVersionRegex_inv in Hm as (v & f & Hv & Hf & E & -> & ->).
  rewrite app_nil_r in Hu. subst u.
  exists v, f. repeat split; auto.
  rewrite Nat.sub_0_r. simpl. rewrite firstn_all. reflexivity.
Qed.

(** X1. The mod version pattern matches a key exactly when the key is
    mods/<a>/<b>/<f> with two slugs and a file name, and the match array is
    then the key, the mod slug (group 1), the version slug (group 2) and the
    file name (group 3): the pattern matches the whole key and nothing
    before or after it. *)
Theorem modVersionRegex_match_array (key : str) (m : list str) :
  str_match key modVersionRegex = Some m
  <-> exists a b f, is_slug a = true /\ is_slug b = true /\ is_filename f = true
                    /\ key = modKey a b f /\ m = [key; a; b; f].
Proof.
  split; [apply modVersionRegex_match_inv|].
  intros (a & b & f & Ha & Hb & Hf & -> & ->). apply modVersionRegex_match; assumption.
Qed.

(** X2. The launcher version pattern matches a key exactly when the key is
    launcher/<v>/<f>, and the match array is then the key, the version slug
    (group 1) and the file name (group 2). *)
Theorem launcherVersionRegex_match_array (key : str) (m : list str) :
  str_match key launcherVersionRegex = Some m
  <-> exists v f, is_slug v = true /\ is_filename f = true
                  /\ key = launcherKey v f /\ m = [key; v; f].
Proof.
  split; [apply launcherVersionRegex_match_inv|].
  intros (v & f & Hv & Hf & -> & ->). apply launcherVersionRegex_match; assumption.
Qed.

(** X3. No key matches both patterns, so that the order in which
    [countDownload] tries them decides nothing. *)
Theorem patterns_disjoint (key : str) :
  str_match key modVersionRegex = None \/ str_match key launcherVersionRegex = None.
Proof.
  destruct (str_match key modVersionRegex) as [m|] eqn:E; [right | left; reflexivity].
  apply modVersionRegex_match_inv in E as (a & b & f & _ & _ & _ & -> & _).
  apply launcherVersionRegex_no_match. intros v f' _ _ E.
  symmetry in E. exact (launcherKey_not_modKey _ _ _ _ _ E).
Qed.

(** X4. Whatever target the classification yields, the key has the shape of
    that target: the slugs handed to the catalog are 1 to 64 characters of
    the slug alphabet (so without slash), and the key is made of them and a
    file name. *)
Theorem classify_sound (key : str) (t : DownloadTarget) :
  classify key = Some t ->
  match t with
  | ModVersionTarget a b =>
      is_slug a = true /\ is_slug b = true
      /\ exists f, is_filename f = true /\ key = modKey a b f
  | LauncherVersionTarget v =>
      is_slug v = true /\ exists f, is_filename f = true /\ key = launcherKey v f
  end.
Proof.
  unfold classify. destruct (str_match key modVersionRegex) as [m|] eqn:E.
  - apply modVersionRegex_match_inv in E as (a & b & f & Ha & Hb & Hf & -> & ->).
    intros H. inversion H; subst. simpl. eauto.
  - destruct (str_match key launcherVersionRegex) as [m|] eqn:E2; [|discriminate].
    apply launcherVersionRegex_match_inv in E2 as (v & f & Hv & Hf & -> & ->).
    intros H. inversion H; subst. simpl. eauto.
Qed.

Lemma classify_sound_witness :
  is_slug (lit "super-mod") = true /\ is_slug (lit "1.2.0") = true
  /\ exists f, is_filename f = true /\ key notifSuperMod = modKey (lit "super-mod") (lit "1.2.0") f.
Proof.
  apply (classify_sound (key notifSuperMod)
           (ModVersionTarget (lit "super-mod") (lit "1.2.0"))).
  vm_compute. reflexivity.
Defined.

Lemma modKey_first_slug a b f a' b' f' :
  forallb slug_char a = true -> forallb slug_char a' = true ->
  modKey a b f = modKey a' b' f' ->
  a = a' /\ b ++ lit "/" ++ f = b' ++ lit "/" ++ f'.
Proof.
  intros Ha Ha' E. unfold modKey in E. simpl in E. inversion E as [E1].
  apply slug_split_unique in E1 as [-> E2]; auto.
Qed.

(** X5. The bounds of a slug. A run of slug characters that is empty or
    longer than 64 characters is not accepted in the place of a slug: the
    key is of no known type, whether the run stands for the mod slug, for
    the version slug of a mod or for the version slug of a launcher. *)
Theorem slug_out_of_bounds_unrecognized (s : str) :
  forallb slug_char s = true ->
  is_slug s = false ->
  (forall b f, classify (modKey s b f) = None)
  /\ (forall a f, is_slug a = true -> classify (modKey a s f) = None)
  /\ (forall f, classify (launcherKey s f) = None).
Proof.
  intros Hs Hn. unfold classify. repeat split.
  - intros b f.
    rewrite modVersionRegex_no_match, launcherVersionRegex_no_match; [reflexivity| |].
    + intros v f' _ _ E. symmetry in E. exact (launcherKey_not_modKey _ _ _ _ _ E).
    + intros a' b' f' Ha' _ _ E.
      pose proof Ha' as (_ & _ & _ & Hca')%is_slug_elim.
      apply modKey_first_slug in E as [-> _]; auto. congruence.
  - intros a f Ha.
    rewrite modVersionRegex_no_match, launcherVersionRegex_no_match; [reflexivity| |].
    + intros v f' _ _ E. symmetry in E. exact (launcherKey_not_modKey _ _ _ _ _ E).
    + intros a' b' f' Ha' Hb' _ E.
      pose proof Ha as (_ & _ & _ & Hca)%is_slug_elim.
      pose proof Ha' as (_ & _ & _ & Hca')%is_slug_elim.
      pose proof Hb' as (_ & _ & _ & Hcb')%is_slug_elim.
      apply modKey_first_slug in E as [-> E]; auto.
      apply slug_split_unique in E as [-> _]; auto. congruence.
  - intros f.
    rewrite modVersionRegex_no_match, launcherVersionRegex_no_match; [reflexivity| |].
    + intros v f' Hv _ E.
      pose proof Hv as (_ & _ & _ & Hcv)%is_slug_elim.
      unfold launcherKey in E. simpl in E. inversion E as [E1].
      apply slug_split_unique in E1 as [-> _]; auto. congruence.
    + intros a' b' f' _ _ _ E. exact (launcherKey_not_modKey _ _ _ _ _ E).
Qed.

Lemma slug_out_of_bounds_unrecognized_witness :
  (forall b f, classify (modKey (repeat 97%N 65) b f) = None)
  /\ (forall a f, is_slug a = true -> classify (modKey a (repeat 97%N 65) f) = None)
  /\ (forall f, classify (launcherKey (repeat 97%N 65) f) = None).
Proof.
  apply (slug_out_of_bounds_unrecognized (repeat 97%N 65)); vm_compute; reflexivity.
Defined.

(** X6. The file name. A key whose part after the slugs is empty or holds a
    line terminator (line feed, carriage return, U+2028, U+2029) is of no
    known type, for a mod as for a launcher. *)
Theorem bad_filename_unrecognized (a b f : str) :
  is_slug a = true -> is_slug b = true ->
  is_filename f = false ->
  classify (modKey a b f) = None /\ classify (launcherKey a f) = None.
Proof.
  intros Ha Hb Hf. unfold classify. split.
  - rewrite modVersionRegex_no_match, launcherVersionRegex_no_match; [reflexivity| |].
    + intros v f' _ _ E. symmetry in E. exact (launcherKey_not_modKey _ _ _ _ _ E).
    + intros a' b' f' Ha' Hb' Hf' E.
      apply modKey_inj in E as (_ & _ & ->); auto. congruence.
  - rewrite modVersionRegex_no_match, launcherVersionRegex_no_match; [reflexivity| |].
    + intros v f' Hv Hf' E. apply launcherKey_inj in E as (_ & ->); auto. congruence.
    + intros a' b' f' _ _ _ E. exact (launcherKey_not_modKey _ _ _ _ _ E).
Qed.

Lemma bad_filename_unrecognized_witness :
  classify (modKey (lit "super-mod") (lit "1.2.0") (lit "file" ++ [10%N] ++ lit ".zip")) = None
  /\ classify (launcherKey (lit "super-mod") (lit "file" ++ [10%N] ++ lit ".zip")) = None.
Proof.
  apply (bad_filename_unrecognized (lit "super-mod") (lit "1.2.0")
           (lit "file" ++ [10%N] ++ lit ".zip")); vm_compute; reflexivity.
Defined.

(** ** The fingerprint *)

Lemma le_bytes_length n x : length (Md5.le_bytes n x) = n.
Proof. revert x. induction n as [|n IH]; intros x; simpl; [reflexivity|]. rewrite IH. reflexivity. Qed.

Lemma le_bytes_bytes n x : Forall (fun b => (b < 256)%N) (Md5.le_bytes n x).
Proof.
  revert x. induction n as [|n IH]; intros x; simpl; constructor; auto.
  apply N.mod_lt. discriminate.
Qed.

Lemma digest_bytes msg :
  length (Md5.digest msg) = 16%nat /\ Forall (fun b => (b < 256)%N) (Md5.digest msg).
Proof.
  unfold Md5.digest. destruct (Md5.chunks _ _ _) as [[[a b] c] d]. split.
  - rewrite !length_app, !le_bytes_length. reflexivity.
  - rewrite !Forall_app. auto using le_bytes_bytes.
Qed.

Lemma hex_digit_char x : (x < 16)%N -> hex_char (Md5.hex_digit x) = true.
Proof.
  intros Hx. unfold Md5.hex_digit, hex_char.
  destruct (N.ltb_spec x 10).
  - apply orb_true_iff. left. apply andb_true_iff. split; apply N.leb_le; lia.
  - apply orb_true_iff. right. apply andb_true_iff. split; apply N.leb_le; lia.
Qed.

Lemma hex_chars bs :
  Forall (fun b => (b < 256)%N) bs ->
  length (Md5.hex bs) = (2 * length bs)%nat /\ forallb hex_char (Md5.hex bs) = true.
Proof.
  induction 1 as [|b bs Hb _ [IHl IHc]]; [split; reflexivity|].
  unfold Md5.hex in *. simpl. rewrite IHl, IHc. split; [lia|].
  rewrite !hex_digit_char; [reflexivity| |].
  - apply N.mod_lt. discriminate.
  - apply N.Div0.div_lt_upper_bound. exact Hb.
Qed.

(** X7. The fingerprint of any address, whatever its characters and its
    length, is 32 characters long, each of them one of 0-9 and a-f. *)
Theorem ipHash_is_32_hex_digits (ip : str) :
  length (ipHashOf ip) = 32%nat /\ forallb hex_char (ipHashOf ip) = true.
Proof.
  unfold ipHashOf.
  destruct (digest_bytes (Md5.utf8 IP_HASH_SALT ++ Md5.utf8 ip)) as [Hl Hb].
  destruct (hex_chars _ Hb) as [Hl' Hc]. rewrite Hl', Hl. split; [reflexivity | exact Hc].
Qed.

(** ** The handler, one notification after the other *)

(** The world after a notification that met no failure. *)
Lemma processNotification_after now now' notif w :
  faults w = [] ->
  fst (processNotification now now' notif w) = Ok tt
  /\ faults (snd (processNotification now now' notif w)) = []
  /\ trackers (snd (processNotification now now' notif w))
     = <[trackerKey notif := now + TRACKING_DURATION]> (trackers w).
Proof.
  intros Hf. rewrite processNotification_observe. unfold bind, trackerKey.
  rewrite observe_ok by assumption.
  destruct (match trackers w !! _ with Some e => e <? now' | None => true end);
    [|auto].
  split; [apply countDownload_returns|]. split.
  - apply countDownload_no_faults. exact Hf.
  - rewrite (countDownload_preserves trackers); auto.
Qed.

(** X8. The trackers of different (path, ipHash) pairs do not interfere: a
    notification for another key or from another host, handled in between,
    changes nothing in whether a visit is fresh. *)
Theorem other_key_does_not_affect_freshness (t1 t1' t2 t2' : Z)
        (other notif : ObjectAccessedGetNotification) (w : World) :
  faults w = [] ->
  trackerKey other <> trackerKey notif ->
  fst (observe t2 t2' (key notif) (ipHashOf (host notif))
               (snd (processNotification t1 t1' other w)))
  = fst (observe t2 t2' (key notif) (ipHashOf (host notif)) w).
Proof.
  intros Hf Hne.
  destruct (processNotification_after t1 t1' other w Hf) as (_ & Hf1 & Ht1).
  rewrite !observe_ok by assumption. simpl. rewrite Ht1.
  unfold trackerKey in *. rewrite lookup_insert_ne by assumption. reflexivity.
Qed.

Lemma other_key_does_not_affect_freshness_witness :
  fst (observe 2000 2000 (key notifSuperMod) (ipHashOf (host notifSuperMod))
               (snd (processNotification 1000 1000 notifLauncher catalogWorld)))
  = fst (observe 2000 2000 (key notifSuperMod) (ipHashOf (host notifSuperMod)) catalogWorld).
Proof.
  apply (other_key_does_not_affect_freshness 1000 1000 2000 2000
           notifLauncher notifSuperMod catalogWorld).
  - reflexivity.
  - vm_compute. discriminate.
Defined.

(** X9. After a notification handled at [t1], the next visit of the same
    key from the same host is fresh exactly when the clock of its comparison
    is strictly after t1 + TRACKING_DURATION, whatever the row was before:
    each visit, counted or not, starts the window anew. *)
Theorem next_visit_fresh_iff_window_over (t1 t1' t2 t2' : Z)
        (notif : ObjectAccessedGetNotification) (w : World) :
  faults w = [] ->
  fst (observe t2 t2' (key notif) (ipHashOf (host notif))
               (snd (processNotification t1 t1' notif w)))
  = Ok (t1 + TRACKING_DURATION <? t2').
Proof.
  intros Hf.
  destruct (processNotification_after t1 t1' notif w Hf) as (_ & Hf1 & Ht1).
  rewrite observe_ok by assumption. simpl. rewrite Ht1.
  unfold trackerKey. rewrite lookup_insert_eq. reflexivity.
Qed.

Lemma next_visit_fresh_iff_window_over_witness :
  fst (observe 61001 61001 (key notifSuperMod) (ipHashOf (host notifSuperMod))
               (snd (processNotification 1000 1000 notifSuperMod catalogWorld)))
  = Ok (1000 + TRACKING_DURATION <? 61001).
Proof.
  apply (next_visit_fresh_iff_window_over 1000 1000 61001 61001 notifSuperMod catalogWorld).
  reflexivity.
Defined.

(** X10. Neither the handler of a notification nor the sweep ever changes a
    row of the catalog, whatever the key, the tables, the clock and the
    failures of the data base: no download count is ever written. *)
Theorem catalog_never_written (now now' : Z)
        (notif : ObjectAccessedGetNotification) (w : World) :
  modVersions (snd (processNotification now now' notif w)) = modVersions w
  /\ launcherVersions (snd (processNotification now now' notif w)) = launcherVersions w
  /\ modVersions (snd (removeExpiredTrackers now w)) = modVersions w
  /\ launcherVersions (snd (removeExpiredTrackers now w)) = launcherVersions w.
Proof.
  destruct (processNotification_preserves_catalog now now' notif w) as [H1 H2].
  assert (H : preserves (fun w => (modVersions w, launcherVersions w))
                        (removeExpiredTrackers now)).
  { apply preserves_try_catch.
    - mnorm. apply preserves_bind; [|intros; apply preserves_ret].
      apply preserves_query; reflexivity.
    - intros e. apply preserves_console_write. reflexivity. }
  specialize (H w). simpl in H. injection H as H3 H4. auto.
Qed.

(** X11. The write that refreshes an existing row is not awaited: when it
    fails, the handler still returns normally, the row keeps its old expiry,
    and the failure is a rejection that nobody handles; the visit is counted
    or not as the old expiry says. *)
Theorem refresh_failure_is_unhandled (now now' e : Z)
        (notif : ObjectAccessedGetNotification) (w : World) (fs : list bool) :
  trackers w !! trackerKey notif = Some e ->
  faults w = false :: true :: fs ->
  let w' := with_unhandled (unhandled w ++ [QueryFailed]) (with_faults fs w) in
  processNotification now now' notif w
  = (if e <? now' then countDownload notif w' else (Ok tt, w'))
  /\ fst (processNotification now now' notif w) = Ok tt
  /\ trackers (snd (processNotification now now' notif w)) !! trackerKey notif = Some e.
Proof.
  intros Hk Hf w'.
  assert (E : processNotification now now' notif w
              = (if e <? now' then countDownload notif w' else (Ok tt, w'))).
  { unfold processNotification, DownloadTracker_findOne, DownloadTracker_save,
      unawaited, query. mnorm. unfold bind. rewrite Hf. simpl.
    unfold trackerKey in Hk. rewrite Hk. simpl. destruct (e <? now'); reflexivity. }
  rewrite E. split; [reflexivity|].
  destruct (e <? now').
  - split; [apply countDownload_returns|].
    rewrite (countDownload_preserves (fun w => trackers w !! trackerKey notif)); auto.
  - auto.
Qed.

Lemma refresh_failure_is_unhandled_witness :
  processNotification 1000 1000 notifUnrelated
                      (with_faults [false; true] boundaryWorld)
  = (if 1000 <? 1000
     then countDownload notifUnrelated
            (with_unhandled (unhandled (with_faults [false; true] boundaryWorld) ++ [QueryFailed])
                            (with_faults [] (with_faults [false; true] boundaryWorld)))
     else (Ok tt,
           with_unhandled (unhandled (with_faults [false; true] boundaryWorld) ++ [QueryFailed])
                          (with_faults [] (with_faults [false; true] boundaryWorld))))
  /\ fst (processNotification 1000 1000 notifUnrelated
                              (with_faults [false; true] boundaryWorld)) = Ok tt
  /\ trackers (snd (processNotification 1000 1000 notifUnrelated
                                        (with_faults [false; true] boundaryWorld)))
       !! trackerKey notifUnrelated = Some 1000.
Proof.
  apply (refresh_failure_is_unhandled 1000 1000 1000 notifUnrelated
           (with_faults [false; true] boundaryWorld) []).
  - vm_compute. reflexivity.
  - reflexivity.
Defined.

(** ** The counter updates and the sweep, whatever the data base does *)

(** X12. [countModVersionDownload] makes one call to the data base, never
    throws and writes to no table. Its only effect is on the console: the
    line that the count could not be updated when the call fails, the line
    for a nonexistant mod version when no row is found, and nothing at all
    when rows are found. *)
Theorem countModVersionDownload_effect (modSlug versionSlug : str) (w : World) :
  countModVersionDownload modSlug versionSlug w
  = (Ok tt,
     with_console
       (console w ++
          match faults w with
          | true :: _ => [ModCountNotUpdated modSlug versionSlug QueryFailed]
          | _ =>
              match filter (fun r => ModVersion.modId r = modSlug
                                     /\ ModVersion.version r = versionSlug)
                           (modVersions w) with
              | [] => [NonexistantMod modSlug versionSlug]
              | _ :: _ => []
              end
          end)
       (with_faults (tl (faults w)) w)).
Proof.
  unfold countModVersionDownload, try_catch, ModVersion_findBy, query. mnorm. unfold bind.
  destruct w as [tr mv lv co un fa]. simpl.
  destruct fa as [|[|] fs]; simpl; try reflexivity;
    destruct (filter _ mv); simpl; rewrite ?app_nil_r; reflexivity.
Qed.

(** X13. The same for [countLauncherVersionDownload]. *)
Theorem countLauncherVersionDownload_effect (versionSlug : str) (w : World) :
  countLauncherVersionDownload versionSlug w
  = (Ok tt,
     with_console
       (console w ++
          match faults w with
          | true :: _ => [LauncherCountNotUpdated versionSlug QueryFailed]
          | _ =>
              match filter (fun r => LauncherVersion.version r = versionSlug)
                           (launcherVersions w) with
              | [] => [NonexistantLauncher versionSlug]
              | _ :: _ => []
              end
          end)
       (with_faults (tl (faults w)) w)).
Proof.
  unfold countLauncherVersionDownload, try_catch, LauncherVersion_findBy, query.
  mnorm. unfold bind.
  destruct w as [tr mv lv co un fa]. simpl.
  destruct fa as [|[|] fs]; simpl; try reflexivity;
    destruct (filter _ lv); simpl; rewrite ?app_nil_r; reflexivity.
Qed.

(** X14. The sweep makes one call to the data base, never throws and
    changes no table: when the call fails it writes one line to the console,
    and otherwise it has no effect at all, whatever rows have expired. *)
Theorem removeExpiredTrackers_effect (now : Z) (w : World) :
  removeExpiredTrackers now w
  = (Ok tt,
     with_console
       (console w ++
          match faults w with
          | true :: _ => [RemovingExpiredFailed QueryFailed]
          | _ => []
          end)
       (with_faults (tl (faults w)) w)).
Proof.
  unfold removeExpiredTrackers, try_catch, DownloadTracker_find, query. mnorm. unfold bind.
  destruct w as [tr mv lv co un fa]. simpl.
  destruct fa as [|[|] fs]; simpl; rewrite ?app_nil_r; reflexivity.
Qed.

(** ** The start of the service *)

(** X15. Construction followed by [startListening], as the server does at
    its start, never leaves a service that listens, whatever the
    configuration. When access key and secret key are there and the endpoint
    is not, the library refuses the client and the constructor throws
    InvalidEndpointError, so that [startListening] is not reached and nothing
    is written to the console; in every other case, all three credentials
    present included, the two warnings are written in this order and the
    service has no client, no subscription and no sweep. *)
Theorem construct_and_start (cfg0 : Cfg) (w : World) :
  bind (constructor cfg0) startListening w
  = (if truthy (accessKey (storage cfg0)) && truthy (secretKey (storage cfg0))
        && negb (truthy (endPoint (storage cfg0)))
     then (Throw InvalidEndpointError, w)
     else (Ok {| cfg := cfg0; client := None;
                 modNotificationEmitter := None; removalTask := None |},
           with_console (console w ++ [MissingStorageClientConfig; NoStorageClient]) w))
  /\ listening (fst (bind (constructor cfg0) startListening w)) = false.
Proof.
  unfold bind. rewrite constructor_outcome.
  destruct (truthy _ && truthy _ && negb _); simpl.
  - split; reflexivity.
  - split; [|reflexivity]. destruct w.
    unfold startListening, console_log, console_write, with_console. mnorm. unfold bind.
    simpl. rewrite <- app_assoc. reflexivity.
Qed.

(** ** The handler as a whole *)

(** X16. The whole effect of the handler when the data base answers: it
    returns normally, the tracker row of (key, ipHash) expires at
    now + TRACKING_DURATION, and no other row of any table changes. The
    console gets a line only for a fresh visit, and then only when the key
    is of no known type or names a version that the catalog does not have;
    a fresh visit of a version that the catalog has leaves no trace but the
    tracker row. *)
Theorem processNotification_effect (now now' : Z)
        (notif : ObjectAccessedGetNotification) (w : World) :
  faults w = [] ->
  processNotification now now' notif w
  = (Ok tt,
     with_console
       (console w ++
          if match trackers w !! trackerKey notif with
             | None => true
             | Some e => e <? now'
             end
          then
            match classify (key notif) with
            | Some (ModVersionTarget modSlug versionSlug) =>
                match filter (fun r => ModVersion.modId r = modSlug
                                       /\ ModVersion.version r = versionSlug)
                             (modVersions w) with
                | [] => [NonexistantMod modSlug versionSlug]
                | _ :: _ => []
                end
            | Some (LauncherVersionTarget versionSlug) =>
                match filter (fun r => LauncherVersion.version r = versionSlug)
                             (launcherVersions w) with
                | [] => [NonexistantLauncher versionSlug]
                | _ :: _ => []
                end
            | None => [UnknownUpload (key notif)]
            end
          else [])
       (with_trackers (<[trackerKey notif := now + TRACKING_DURATION]> (trackers w)) w)).
Proof.
  intros Hf. rewrite processNotification_observe. unfold bind, trackerKey.
  rewrite observe_ok by assumption.
  destruct (match trackers w !! _ with Some e => e <? now' | None => true end).
  - unfold countDownload. destruct (classify (key notif)) as [[a b|v]|].
    + unfold countModVersionDownload, try_catch, ModVersion_findBy, query.
      mnorm. unfold bind. simpl. rewrite Hf.
      destruct (filter _ (modVersions w)); simpl; rewrite ?app_nil_r; reflexivity.
    + unfold countLauncherVersionDownload, try_catch, LauncherVersion_findBy, query.
      mnorm. unfold bind. simpl. rewrite Hf.
      destruct (filter _ (launcherVersions w)); simpl; rewrite ?app_nil_r; reflexivity.
    + reflexivity.
  - simpl. rewrite app_nil_r. reflexivity.
Qed.

Lemma processNotification_effect_witness :
  processNotification 1000 1000 notifSuperMod emptyWorld
  = (Ok tt,
     with_console
       (console emptyWorld ++
          if match trackers emptyWorld !! trackerKey notifSuperMod with
             | None => true
             | Some e => e <? 1000
             end
          then
            match classify (key notifSuperMod) with
            | Some (ModVersionTarget modSlug versionSlug) =>
                match filter (fun r => ModVersion.modId r = modSlug
                                       /\ ModVersion.version r = versionSlug)
                             (modVersions emptyWorld) with
                | [] => [NonexistantMod modSlug versionSlug]
                | _ :: _ => []
                end
            | Some (LauncherVersionTarget versionSlug) =>
                match filter (fun r => LauncherVersion.version r = versionSlug)
                             (launcherVersions emptyWorld) with
                | [] => [NonexistantLauncher versionSlug]
                | _ :: _ => []
                end
            | None => [UnknownUpload (key notifSuperMod)]
            end
          else [])
       (with_trackers (<[trackerKey notifSuperMod := 1000 + TRACKING_DURATION]>
                         (trackers emptyWorld)) emptyWorld)).
Proof. apply (processNotification_effect 1000 1000 notifSuperMod emptyWorld). reflexivity. Defined.

(** X17. Which failures leave the handler as an exception: the read of the
    tracker row, and the write of a new row. A failure of the write that
    refreshes an existing row, or of the catalog, does not. *)
Theorem processNotification_throws_iff (now now' : Z)
        (notif : ObjectAccessedGetNotification) (w : World) :
  fst (processNotification now now' notif w)
  = match faults w with
    | true :: _ => Throw QueryFailed
    | false :: true :: _ =>
        match trackers w !! trackerKey notif with
        | None => Throw QueryFailed
        | Some _ => Ok tt
        end
    | _ => Ok tt
    end.
Proof.
  rewrite processNotification_observe. unfold bind, observe, trackerKey.
  unfold DownloadTracker_findOne, DownloadTracker_save, unawaited, query.
  mnorm. unfold bind.
  destruct w as [tr mv lv co un fa]. simpl.
  destruct fa as [|[|] [|[|] fs]]; simpl; try reflexivity;
    destruct (tr !! _) as [e|]; simpl; try reflexivity;
    try (destruct (e <? now'); [apply countDownload_returns | reflexivity]);
    apply countDownload_returns.
Qed.
